(** * Recipe Explorer: the file-backed cache and the favorites store

    A shallow embedding of [src/cache.js] and [src/favorites.js], and of
    the queries of [src/api.js] (in [Module Api], with a model of the
    network of its own).

    Every exported function of the two modules is an [async] function.  It is
    embedded as a program of the monad [prog]: a tree whose nodes are the
    effects the function performs (file system calls, [Date.now()], the
    invocation of the caller-supplied [fetchFn], the points at which an
    [await] suspends) and whose leaves are a returned value or a thrown
    error.  The same program is then
    - run to completion against a [world] ([run]): one call, nothing else
      in flight;
    - run interleaved with other calls ([sched]): the event loop may switch
      to another pending call at each [await].

    Modelling choices, in one place:
    - a backing file is absent, exists but cannot be read, holds text that
      [JSON.parse] rejects, or holds the serialisation of a document of the
      shape the module itself writes: an array of recipes for the favorites,
      an object of [{ timestamp, data }] entries for the cache (text that
      parses to another shape, an array in the cache file for one, is not
      represented);
    - a JavaScript object used as a dictionary is a finite map over its own
      properties.  Of the prototype chain one thing matters and is
      represented: an assignment to the name [__proto__], on an object that
      has no own property of that name, goes to the setter of
      [Object.prototype] and adds no property ([set_property]);
    - a backing location may refuse to be written; [fs.mkdir] with
      [recursive: true] does not fail;
    - [fs.writeFile] is not atomic: it opens the file, which empties it,
      and writes the text in a later turn of the event loop; a document is
      written with one write.  Another call may read or write the file in
      between ([Writing], [sched_overlap]);
    - a JSON value written to a file and parsed back is the same value;
      JSON numbers are integers;
    - [Date.now()] reads a clock that stands still while one call runs
      alone, and may advance between the steps of the event loop;
    - [fetchFn] is an external retrieval function: it does not touch the
      backing files;
    - [console.error] is not represented. *)

From stdpp Require Import gmap strings list fin_maps.
From Stdlib Require Import ZArith.

Local Open Scope Z_scope.
Set Warnings "-register-all,-clear-no-such-hyp".

(** ** JSON values: the payloads of the cache and the fields of a recipe *)

Inductive value : Type :=
| JNull
| JBool (b : bool)
| JNum (z : Z)
| JStr (s : string)
| JArr (items : list value)
| JObj (props : list (string * value)).

(** JavaScript's [ToBoolean] on these values: [null], [false], [0] and the
    empty string are falsy, every array and every object is truthy. *)
Definition truthy (v : value) : bool :=
  match v with
  | JNull => false
  | JBool b => b
  | JNum z => negb (z =? 0)
  | JStr s => negb (String.eqb s "")
  | JArr _ => true
  | JObj _ => true
  end.

(** ** Errors and completions *)

Inductive error : Type :=
| ENOENT                    (* no such file *)
| EACCES                    (* permission denied *)
| SyntaxError               (* JSON.parse *)
| TypeError                 (* property of undefined *)
| Raised (reason : value).  (* whatever fetchFn rejects with *)

Inductive completion (A : Type) : Type :=
| Normal (a : A)
| Abrupt (e : error).
Arguments Normal {A} a.
Arguments Abrupt {A} e.

(** The settled state of the promise an invocation of [fetchFn] returns. *)
Inductive outcome : Type :=
| Fulfilled (v : value)
| Rejected (e : error).

(** The caller-supplied retrieval function.  It is opaque to the store; its
    [n]-th invocation (counted from 0 over the whole run) settles as
    [f n]. *)
Definition fetcher : Type := nat → outcome.

Record promise : Type := { pid : nat; settles : outcome }.

(** ** The runtime: files, the world, programs *)

Section Runtime.
Context {D : Type}.   (* the document type of the module's backing file *)

(** The text of a file, seen through [JSON.parse]. *)
Inductive text : Type :=
| Malformed (raw : string)   (* JSON.parse throws *)
| Encoded (d : D).           (* JSON.stringify d *)

Inductive file : Type :=
| Absent
| Unreadable                 (* exists; fs.readFile fails *)
| Holds (t : text).

Record world : Type := {
  disk : file;
  read_only : bool;          (* fs.writeFile fails *)
  clock : Z;                 (* Date.now() *)
  (* a record of what has happened, for the statements: *)
  invoked : list nat;        (* who invoked fetchFn, oldest first *)
  writes : nat               (* successful fs.writeFile calls so far *)
}.

Definition set_clock (t : Z) (w : world) : world :=
  {| disk := disk w; read_only := read_only w; clock := t;
     invoked := invoked w; writes := writes w |}.

Inductive prog (A : Type) : Type :=
| Ret (a : A)
| Throw (e : error)
| FsAccess (k : completion unit → prog A)
| FsMkdir (k : completion unit → prog A)
| FsReadFile (k : completion text → prog A)
| FsWriteFile (t : text) (k : completion unit → prog A)
| DateNow (k : Z → prog A)
| Invoke (f : fetcher) (k : promise → prog A)
| AwaitPromise (p : promise) (k : outcome → prog A)
| Resume (k : prog A)
(* [fs.writeFile] under way: the file has been opened, which emptied it; the
   text is still to be written *)
| Writing (t : text) (k : completion unit → prog A).
Arguments Ret {A} a.
Arguments Throw {A} e.
Arguments FsAccess {A} k.
Arguments FsMkdir {A} k.
Arguments FsReadFile {A} k.
Arguments FsWriteFile {A} t k.
Arguments DateNow {A} k.
Arguments Invoke {A} f k.
Arguments AwaitPromise {A} p k.
Arguments Resume {A} k.
Arguments Writing {A} t k.

Fixpoint bind {A B} (p : prog A) (f : A → prog B) : prog B :=
  match p with
  | Ret a => f a
  | Throw e => Throw e
  | FsAccess k => FsAccess (λ r, bind (k r) f)
  | FsMkdir k => FsMkdir (λ r, bind (k r) f)
  | FsReadFile k => FsReadFile (λ r, bind (k r) f)
  | FsWriteFile t k => FsWriteFile t (λ r, bind (k r) f)
  | DateNow k => DateNow (λ r, bind (k r) f)
  | Invoke g k => Invoke g (λ r, bind (k r) f)
  | AwaitPromise p k => AwaitPromise p (λ r, bind (k r) f)
  | Resume k => Resume (bind k f)
  | Writing t k => Writing t (λ r, bind (k r) f)
  end.

(** [try { p } catch (e) { h e }] *)
Fixpoint try_catch {A} (p : prog A) (h : error → prog A) : prog A :=
  match p with
  | Ret a => Ret a
  | Throw e => h e
  | FsAccess k => FsAccess (λ r, try_catch (k r) h)
  | FsMkdir k => FsMkdir (λ r, try_catch (k r) h)
  | FsReadFile k => FsReadFile (λ r, try_catch (k r) h)
  | FsWriteFile t k => FsWriteFile t (λ r, try_catch (k r) h)
  | DateNow k => DateNow (λ r, try_catch (k r) h)
  | Invoke g k => Invoke g (λ r, try_catch (k r) h)
  | AwaitPromise p k => AwaitPromise p (λ r, try_catch (k r) h)
  | Resume k => Resume (try_catch k h)
  | Writing t k => Writing t (λ r, try_catch (k r) h)
  end.

Definition settle {A} (r : completion A) : prog A :=
  match r with Normal a => Ret a | Abrupt e => Throw e end.

(** The primitives, as the source calls them. *)
Definition fs_access : prog unit := FsAccess settle.
Definition fs_mkdir : prog unit := FsMkdir settle.
Definition fs_readFile : prog text := FsReadFile settle.
Definition fs_writeFile (t : text) : prog unit := FsWriteFile t settle.
Definition Date_now : prog Z := DateNow Ret.
Definition JSON_stringify (d : D) : text := Encoded d.
Definition JSON_parse (t : text) : prog D :=
  match t with
  | Malformed _ => Throw SyntaxError
  | Encoded d => Ret d
  end.

(** [await f()] for an [async] function [f] of these modules: the body of
    [f] runs, and the caller is resumed with its completion in a later
    turn of the event loop. *)
Definition await {A} (p : prog A) : prog A :=
  try_catch (bind p (λ a, Resume (Ret a))) (λ e, Resume (Throw e)).

(** [await fetchFn()]: the invocation is synchronous, the caller is
    resumed when the promise settles. *)
Definition await_call (f : fetcher) : prog value :=
  Invoke f (λ p, AwaitPromise p (λ o,
    match o with Fulfilled v => Ret v | Rejected e => Throw e end)).

(** *** What each effect does to the world *)

Definition do_access (w : world) : completion unit :=
  match disk w with
  | Absent => Abrupt ENOENT
  | _ => Normal ()
  end.

Definition do_readFile (w : world) : completion text :=
  match disk w with
  | Absent => Abrupt ENOENT
  | Unreadable => Abrupt EACCES
  | Holds t => Normal t
  end.

Definition do_writeFile (t : text) (w : world) : completion unit * world :=
  if read_only w then (Abrupt EACCES, w)
  else (Normal (),
        {| disk := match disk w with Unreadable => Unreadable | _ => Holds t end;
           read_only := read_only w; clock := clock w;
           invoked := invoked w; writes := S (writes w) |}).

(** The two steps of [fs.writeFile] when other calls are in flight.
    Opening the file for writing creates it, or empties it; the text is then
    written from the start of the file. *)
Definition emptied (w : world) : world :=
  {| disk := match disk w with Unreadable => Unreadable | _ => Holds (Malformed "") end;
     read_only := read_only w; clock := clock w;
     invoked := invoked w; writes := writes w |}.

Definition written (t : text) (w : world) : world :=
  {| disk := match disk w with Unreadable => Unreadable | _ => Holds t end;
     read_only := read_only w; clock := clock w;
     invoked := invoked w; writes := S (writes w) |}.

(** The file is not empty: another call has written its text since this
    call emptied the file. *)
Definition occupied (w : world) : bool :=
  match disk w with
  | Holds (Malformed raw) => negb (String.eqb raw "")
  | Holds (Encoded _) => true
  | _ => false
  end.

(** The world after call [tid] has invoked [fetchFn]. *)
Definition logged (tid : nat) (w : world) : world :=
  {| disk := disk w; read_only := read_only w; clock := clock w;
     invoked := invoked w ++ [tid]; writes := writes w |}.

Definition do_invoke (tid : nat) (f : fetcher) (w : world) : promise * world :=
  ({| pid := length (invoked w); settles := f (length (invoked w)) |},
   logged tid w).

(** *** One call, run to completion

    [tid] names the call in the log [invoked]. *)
Fixpoint run {A} (tid : nat) (p : prog A) (w : world) : completion A * world :=
  match p with
  | Ret a => (Normal a, w)
  | Throw e => (Abrupt e, w)
  | FsAccess k => run tid (k (do_access w)) w
  | FsMkdir k => run tid (k (Normal ())) w
  | FsReadFile k => run tid (k (do_readFile w)) w
  | FsWriteFile t k => run tid (k (do_writeFile t w).1) (do_writeFile t w).2
  | DateNow k => run tid (k (clock w)) w
  | Invoke f k => run tid (k (do_invoke tid f w).1) (do_invoke tid f w).2
  | AwaitPromise p k => run tid (k (settles p)) w
  | Resume k => run tid k w
  | Writing t k => run tid (k (Normal ())) (written t w)
  end.

(** *** Several calls in flight

    A call runs without interruption up to its next [await]
    ([run_sync]); the event loop then resumes any one of the suspended
    calls ([resume]).  A pending [fs.writeFile] takes two turns: the file is
    opened and emptied, and the call goes on as [Writing]; then the text is
    written.  [resume] writes the text of a [Writing] call when the file is
    still empty; what happens when it is not is the matter of
    [sched_overlap] below. *)
Fixpoint run_sync {A} (tid : nat) (p : prog A) (w : world) : prog A * world :=
  match p with
  | DateNow k => run_sync tid (k (clock w)) w
  | Invoke f k => run_sync tid (k (do_invoke tid f w).1) (do_invoke tid f w).2
  | _ => (p, w)
  end.

Definition resume {A} (tid : nat) (p : prog A) (w : world) : option (prog A * world) :=
  match p with
  | Ret _ | Throw _ => None
  | FsAccess k => Some (run_sync tid (k (do_access w)) w)
  | FsMkdir k => Some (run_sync tid (k (Normal ())) w)
  | FsReadFile k => Some (run_sync tid (k (do_readFile w)) w)
  | FsWriteFile t k =>
      if read_only w then Some (run_sync tid (k (Abrupt EACCES)) w)
      else Some (Writing t k, emptied w)
  | Writing t k =>
      if occupied w then None
      else Some (run_sync tid (k (Normal ())) (written t w))
  | AwaitPromise p k => Some (run_sync tid (k (settles p)) w)
  | Resume k => Some (run_sync tid k w)
  | DateNow _ | Invoke _ _ => Some (run_sync tid p w)
  end.

Definition finished {A} (p : prog A) : bool :=
  match p with Ret _ | Throw _ => true | _ => false end.

(** The calls in flight, by position. *)
Definition config (A : Type) : Type := world * list (prog A).

(** One turn of the event loop.  [sched_overlap]: the text [t] of a call
    lands on the text another call has written since this call emptied the
    file.  It overwrites that text from the start: the file then holds [t]
    when [t] is at least as long, and otherwise [t] followed by the end of
    the other text, which does not parse.  The lengths of the texts are not
    represented: the relation has both outcomes, and what is proved of
    every schedule holds whichever the lengths decide. *)
Inductive sched {A} : config A → config A → Prop :=
| sched_resume w pool tid p p' w' :
    pool !! tid = Some p →
    resume tid p w = Some (p', w') →
    sched (w, pool) (w', <[tid := p']> pool)
| sched_time w pool d :
    0 ≤ d →
    sched (w, pool) (set_clock (clock w + d) w, pool)
| sched_overlap w pool tid t k t' p' w' :
    pool !! tid = Some (Writing t k) →
    occupied w = true →
    (t' = t ∨ ∃ raw, t' = Malformed raw) →
    run_sync tid (k (Normal ())) (written t' w) = (p', w') →
    sched (w, pool) (w', <[tid := p']> pool).

(** Calling the functions one after the other without awaiting them:
    each runs up to its first [await]. *)
Fixpoint spawn {A} (tid : nat) (calls : list (prog A)) (w : world) : config A :=
  match calls with
  | [] => (w, [])
  | p :: rest =>
      let '(p', w') := run_sync tid p w in
      let '(w'', pool) := spawn (S tid) rest w' in
      (w'', p' :: pool)
  end.

(** Resuming the calls named by a schedule, one after the other. *)
Fixpoint play {A} (schedule : list nat) (c : config A) : option (config A) :=
  match schedule with
  | [] => Some c
  | tid :: rest =>
      match snd c !! tid with
      | Some p =>
          match resume tid p (fst c) with
          | Some (p', w') => play rest (w', <[tid := p']> (snd c))
          | None => None
          end
      | None => None
      end
  end.

(** A backing file in working order that holds the document [d]. *)
Definition stored (d : D) (now : Z) (log : list nat) (n : nat) : world :=
  {| disk := Holds (Encoded d); read_only := false; clock := now;
     invoked := log; writes := n |}.

End Runtime.

Arguments text D : clear implicits.
Arguments file D : clear implicits.
Arguments world D : clear implicits.
Arguments prog D A : clear implicits.
Arguments config D A : clear implicits.
Arguments Ret {D A} a.
Arguments Throw {D A} e.
Arguments FsAccess {D A} k.
Arguments FsMkdir {D A} k.
Arguments FsReadFile {D A} k.
Arguments FsWriteFile {D A} t k.
Arguments DateNow {D A} k.
Arguments Invoke {D A} f k.
Arguments AwaitPromise {D A} p k.
Arguments Resume {D A} k.
Arguments Writing {D A} t k.
Arguments Malformed {D} raw.
Arguments Encoded {D} d.
Arguments Absent {D}.
Arguments Unreadable {D}.
Arguments Holds {D} t.

Global Instance prog_ret {D} : MRet (prog D) := λ A a, Ret a.
Global Instance prog_bind {D} : MBind (prog D) := λ A B f p, bind p f.

(** ** src/cache.js *)

Module Cache.

(** One entry of the cache document: [{ timestamp, data }]. *)
Record entry : Type := { timestamp : Z; data : value }.

(** The cache document: the object that maps a key to its entry. *)
Abbreviation doc := (gmap string entry).

(** [24 * 60 * 60 * 1000]: 24 hours in milliseconds. *)
Definition CACHE_DURATION : Z := 24 * 60 * 60 * 1000.

Definition initializeCache : prog doc unit :=
  try_catch fs_access
    (λ _, fs_mkdir;; fs_writeFile (JSON_stringify ∅)).

Definition getFromCache (key : string) : prog doc value :=
  try_catch
    (data ← fs_readFile;
     cache ← JSON_parse data;
     match cache !! key with
     | Some e =>
         now ← Date_now;
         if bool_decide (now - timestamp e < CACHE_DURATION)
         then mret (Cache.data e)
         else mret JNull
     | None => mret JNull
     end)
    (λ _, mret JNull).

(** [cache[key] = entry], on the object [JSON.parse] returned.  The own
    properties of that object are data properties, and so are the
    properties it inherits from [Object.prototype], all but [__proto__]:
    assigning to that name, when the object has no own property of that
    name, calls the inherited setter, which makes [entry] the prototype of
    the object and adds no property (and [JSON.stringify] writes own
    properties only).  Every other assignment adds or replaces an own
    property. *)
Definition set_property (key : string) (e : entry) (cache : gmap string entry)
    : gmap string entry :=
  if bool_decide (key = "__proto__" ∧ cache !! key = None) then cache
  else <[key := e]> cache.

Definition saveToCache (key : string) (data : value) : prog doc bool :=
  try_catch
    (await initializeCache;;
     text ← fs_readFile;
     cache ← JSON_parse text;
     now ← Date_now;
     fs_writeFile
       (JSON_stringify (set_property key {| timestamp := now; data := data |} cache));;
     mret true)
    (λ _, mret false).

(** The body of [for (const key in cache)], over the keys still to visit.
    The keys are taken in the order [map_to_list] lists them; the loop does
    the same in any order ([run_for_in] below holds for every duplicate-free
    list of keys). *)
Fixpoint for_in (keys : list string) (cache : gmap string entry) (removedCount : nat)
    : prog doc (gmap string entry * nat) :=
  match keys with
  | [] => mret (cache, removedCount)
  | key :: keys' =>
      now ← Date_now;
      match cache !! key with
      | Some e =>
          if bool_decide (CACHE_DURATION ≤ now - timestamp e)
          then for_in keys' (delete key cache) (S removedCount)
          else for_in keys' cache removedCount
      | None => Throw TypeError
      end
  end.

Definition clearExpiredCache : prog doc nat :=
  try_catch
    (data ← fs_readFile;
     cache ← JSON_parse data;
     '(cache', removedCount) ← for_in (map_to_list cache).*1 cache 0%nat;
     (if bool_decide (0 < removedCount)%nat
      then fs_writeFile (JSON_stringify cache')
      else mret ());;
     mret removedCount)
    (λ _, mret 0%nat).

Definition getCachedOrFetch (key : string) (fetchFn : fetcher) (forceRefresh : bool)
    : prog doc value :=
  cachedData ← (if negb forceRefresh then await (getFromCache key) else mret JNull);
  if truthy cachedData then mret cachedData
  else
    freshData ← await_call fetchFn;
    await (saveToCache key freshData);;
    mret freshData.

End Cache.

(** ** src/favorites.js *)

Module Favorites.

(** A recipe as the store sees it: the identifier [idMeal] and the other
    fields, which the store never looks at. *)
Record recipe : Type := { idMeal : string; fields : list (string * value) }.

(** The favorites document: the array of recipes, in insertion order. *)
Abbreviation doc := (list recipe).

Definition initializeFavorites : prog doc unit :=
  try_catch fs_access
    (λ _, fs_mkdir;; fs_writeFile (JSON_stringify [])).

Definition getFavorites : prog doc (list recipe) :=
  try_catch
    (await initializeFavorites;;
     data ← fs_readFile;
     JSON_parse data)
    (λ _, mret []).

Definition addFavorite (recipe : recipe) : prog doc bool :=
  try_catch
    (await initializeFavorites;;
     favorites ← await getFavorites;
     if existsb (λ fav, String.eqb (idMeal fav) (idMeal recipe)) favorites
     then mret false
     else
       fs_writeFile (JSON_stringify (favorites ++ [recipe]));;
       mret true)
    (λ _, mret false).

Definition removeFavorite (recipeId : string) : prog doc bool :=
  try_catch
    (await initializeFavorites;;
     favorites ← await getFavorites;
     let updatedFavorites :=
       List.filter (λ fav, negb (String.eqb (idMeal fav) recipeId)) favorites in
     if (length favorites =? length updatedFavorites)%nat
     then mret false
     else
       fs_writeFile (JSON_stringify updatedFavorites);;
       mret true)
    (λ _, mret false).

Definition isInFavorites (recipeId : string) : prog doc bool :=
  try_catch
    (favorites ← await getFavorites;
     mret (existsb (λ fav, String.eqb (idMeal fav) recipeId) favorites))
    (λ _, mret false).

(** [None] stands for the [null] the source returns. *)
Definition getFavoriteById (recipeId : string) : prog doc (option recipe) :=
  try_catch
    (favorites ← await getFavorites;
     mret (List.find (λ fav, String.eqb (idMeal fav) recipeId) favorites))
    (λ _, mret None).

(** The identifiers of a document, in order. *)
Definition ids (d : list recipe) : list string := idMeal <$> d.

End Favorites.

(** ** src/api.js

    The functions that query TheMealDB.  The network is an oracle: the
    [n]-th request of a run (counted from 0) gets the response
    [network n request].  A URL is represented by the request it encodes; the
    body of a response is seen through [response.json()], and is an object
    whose [meals] is [null] or an array of meals.  [getMealsByIngredient]
    races the request against a timer and is not represented. *)

Module Api.

(** A meal is the record the favorites store keeps. *)
Abbreviation meal := Favorites.recipe.

Inductive request : Type :=
| SearchByName (query : string)          (* search.php?s= *)
| LookupById (id : string)               (* lookup.php?i= *)
| SearchByFirstLetter (letter : string)  (* search.php?f= *)
| FilterByCategory (category : value)    (* filter.php?c= *)
| Random.                                (* random.php *)

Inductive body : Type :=
| NotJson                                (* response.json() rejects *)
| Data (meals : option (list meal)).     (* { meals: null } or { meals: [...] } *)

Record response : Type := { ok : bool; status : Z; payload : body }.

Inductive http : Type :=
| Unreachable                            (* fetch rejects *)
| Answer (r : response).

Definition network : Type := nat → request → http.

Inductive failure : Type :=
| NetworkFailure
| HttpError (status : Z)                 (* new Error(`Error: ${response.status}`) *)
| BodySyntaxError
| FailedToFetch.                         (* new Error('Failed to fetch') *)

(** What a run has done so far: the requests sent, oldest first, and the
    milliseconds spent in [setTimeout]. *)
Record net : Type := { sent : list request; slept : Z }.

Definition io (A : Type) : Type := network → net → (failure + A) * net.

Definition ret {A} (a : A) : io A := λ _ s, (inr a, s).

Definition bind {A B} (p : io A) (f : A → io B) : io B :=
  λ nw s, match p nw s with
          | (inr a, s') => f a nw s'
          | (inl e, s') => (inl e, s')
          end.

Definition throw {A} (e : failure) : io A := λ _ s, (inl e, s).

(** [try { p } catch (error) { h error }] *)
Definition attempt {A} (p : io A) (h : failure → io A) : io A :=
  λ nw s, match p nw s with
          | (inr a, s') => (inr a, s')
          | (inl e, s') => h e nw s'
          end.

Definition fetch (r : request) : io response :=
  λ nw s,
    let s' := {| sent := sent s ++ [r]; slept := slept s |} in
    match nw (length (sent s)) r with
    | Unreachable => (inl NetworkFailure, s')
    | Answer resp => (inr resp, s')
    end.

(** [response.json()] *)
Definition json (resp : response) : io (option (list meal)) :=
  match payload resp with
  | NotJson => throw BodySyntaxError
  | Data meals => ret meals
  end.

(** [new Promise(resolve => setTimeout(resolve, ms))] *)
Definition sleep (ms : Z) : io unit :=
  λ _ s, (inr (), {| sent := sent s; slept := slept s + ms |}).

Declare Scope io_scope.
Delimit Scope io_scope with io.
Notation "x <- p ;; q" := (bind p (λ x, q))
  (at level 100, p at next level, right associativity) : io_scope.
Notation "p ;; q" := (bind p (λ _, q))
  (at level 100, right associativity) : io_scope.
Local Open Scope io_scope.

Definition searchMealsByName (query : string) : io (list meal) :=
  attempt
    (response <- fetch (SearchByName query);;
     if negb (ok response) then throw (HttpError (status response))
     else
       data <- json response;;
       ret (default [] data))
    (λ _, ret []).

(** What [getMealById] and [getRandomMeal] return: a meal, [null], or the
    [undefined] that indexing an empty array gives. *)
Inductive lookup : Type :=
| Found (m : meal)
| Null
| Undefined.

(** [data.meals ? data.meals[0] : null] *)
Definition first_meal (meals : option (list meal)) : lookup :=
  match meals with
  | Some (m :: _) => Found m
  | Some [] => Undefined
  | None => Null
  end.

Fixpoint getMealById (id : string) (attempts : nat) : io lookup :=
  attempt
    (response <- fetch (LookupById id);;
     if negb (ok response) then throw (HttpError (status response))
     else
       data <- json response;;
       ret (first_meal data))
    (λ _,
       match attempts with
       | S attempts' =>
           match attempts' with
           | S _ => sleep 1000;; getMealById id attempts'
           | O => ret Null
           end
       | O => ret Null
       end).

(** [Promise.all]: the promises were started in the order of the list. *)
Fixpoint Promise_all {A} (ps : list (io A)) : io (list A) :=
  match ps with
  | [] => ret []
  | p :: ps' =>
      a <- p;;
      rest <- Promise_all ps';;
      ret (a :: rest)
  end.

(** [new Set(iterable)], spread back into an array: the distinct elements
    in the order of their first occurrence. *)
Definition Set_add (s : list string) (x : string) : list string :=
  if bool_decide (x ∈ s) then s else s ++ [x].

Definition Set_from (l : list string) : list string := foldl Set_add [] l.

(** The promise chain of one letter. *)
Definition letter_meals (letter : string) : io (list meal) :=
  attempt
    (res <- fetch (SearchByFirstLetter letter);;
     data <- (if ok res then json res else throw FailedToFetch);;
     ret (default [] data))
    (λ _, ret []).

(** An element [None] stands for the [undefined] that [find] gives when it
    finds nothing. *)
Definition searchMealsByFirstLetter (letters : list string) : io (list (option meal)) :=
  attempt
    (results <- Promise_all (letter_meals <$> letters);;
     let flat := concat results in
     ret ((λ id, List.find (λ meal, String.eqb (Favorites.idMeal meal) id) flat)
            <$> Set_from (Favorites.idMeal <$> flat)))
    (λ _, ret []).

(** [recipe.strCategory], [None] when the recipe has no such field. *)
Definition strCategory (recipe : meal) : option value :=
  snd <$> List.find (λ kv, String.eqb (fst kv) "strCategory") (Favorites.fields recipe).

(** [recipe] is [None] for [null] or [undefined]; [limit] is a count. *)
Definition getRelatedRecipes (recipe : option meal) (limit : nat) : io (list meal) :=
  match recipe with
  | Some recipe =>
      match strCategory recipe with
      | Some category =>
          if truthy category then
            attempt
              (response <- fetch (FilterByCategory category);;
               if negb (ok response) then throw (HttpError (status response))
               else
                 data <- json response;;
                 ret (take limit
                        (List.filter
                           (λ meal, negb (String.eqb (Favorites.idMeal meal)
                                            (Favorites.idMeal recipe)))
                           (default [] data))))
              (λ _, ret [])
          else ret []
      | None => ret []
      end
  | None => ret []
  end.

Definition getRandomMeal : io lookup :=
  attempt
    (response <- fetch Random;;
     if negb (ok response) then throw (HttpError (status response))
     else
       data <- json response;;
       ret (first_meal data))
    (λ _, ret Null).

End Api.

(** ** Vocabulary of the statements *)

(** The freshness rule of the cache: an entry stored at [timestamp e] is
    fresh at [now] iff [now - timestamp e < CACHE_DURATION]. *)
Definition fresh (now : Z) (e : Cache.entry) : Prop :=
  now - Cache.timestamp e < Cache.CACHE_DURATION.

Global Instance fresh_dec now e : Decision (fresh now e).
Proof. unfold fresh. apply _. Defined.

(** What a sweep at [now] keeps and what it drops, said on the document. *)
Definition kept (now : Z) (d : gmap string Cache.entry) : gmap string Cache.entry :=
  filter (λ kv, fresh now kv.2) d.

Definition dropped (now : Z) (d : gmap string Cache.entry) : gmap string Cache.entry :=
  filter (λ kv, ¬ fresh now kv.2) d.

(** A backing file from which no document can be loaded: it is absent,
    cannot be read, or holds text that does not parse. *)
Definition unusable {D} (f : file D) : Prop :=
  match f with
  | Holds (Encoded _) => False
  | _ => True
  end.

(** The backing location of the cache is in working order and stands for
    the document [d]: it can be written, and it holds [d] or is still absent
    (and [d] is the empty document that the first access creates). *)
Definition serves (w : world Cache.doc) (d : gmap string Cache.entry) : Prop :=
  read_only w = false ∧
  (disk w = Holds (Encoded d) ∨ (disk w = Absent ∧ d = ∅)).

(** A lookup of [key] at [w] misses: the file holds no fresh entry for
    [key] with a truthy payload (it holds no document at all, or the
    document has no entry for [key], or the entry is stale, or its payload
    is falsy). *)
Definition misses (key : string) (w : world Cache.doc) : Prop :=
  ∀ d e, disk w = Holds (Encoded d) → d !! key = Some e →
         fresh (clock w) e → truthy (Cache.data e) = false.

(** An assignment [cache[key] = entry] that adds or replaces an entry:
    every one but the assignment to ["__proto__"] on a document that has no
    entry of that name. *)
Definition assignable (key : string) (d : gmap string Cache.entry) : Prop :=
  key ≠ "__proto__" ∨ is_Some (d !! key).

(** The backing location does not take a save: it cannot be written, or
    the file cannot be read, or its text does not parse. *)
Definition refuses (w : world Cache.doc) : Prop :=
  read_only w = true ∨ disk w = Unreadable ∨ ∃ raw, disk w = Holds (Malformed raw).

(** A cache file whose text does not parse, at a location that can be
    written. *)
Definition corrupt_cache : world Cache.doc :=
  {| disk := Holds (Malformed "{oops"); read_only := false; clock := 1000;
     invoked := []; writes := 0 |}.

(** A fresh entry for ["k"] whose payload is the falsy value [0]. *)
Definition zero_entry : Cache.entry := {| Cache.timestamp := 0; Cache.data := JNum 0 |}.
Definition zero_doc : gmap string Cache.entry := {[ "k" := zero_entry ]}.

(** A program that never invokes [fetchFn] and awaits no promise of it. *)
Fixpoint quiet {D A} (p : prog D A) : Prop :=
  match p with
  | Ret _ | Throw _ => True
  | FsAccess k => ∀ r, quiet (k r)
  | FsMkdir k => ∀ r, quiet (k r)
  | FsReadFile k => ∀ r, quiet (k r)
  | FsWriteFile _ k => ∀ r, quiet (k r)
  | DateNow k => ∀ r, quiet (k r)
  | Invoke _ _ | AwaitPromise _ _ => False
  | Resume k => quiet k
  | Writing _ k => ∀ r, quiet (k r)
  end.

(** A quiet program that cannot fail either. *)
Fixpoint safe {D A} (p : prog D A) : Prop :=
  match p with
  | Ret _ => True
  | Throw _ => False
  | FsAccess k => ∀ r, safe (k r)
  | FsMkdir k => ∀ r, safe (k r)
  | FsReadFile k => ∀ r, safe (k r)
  | FsWriteFile _ k => ∀ r, safe (k r)
  | DateNow k => ∀ r, safe (k r)
  | Invoke _ _ | AwaitPromise _ _ => False
  | Resume k => safe k
  | Writing _ k => ∀ r, safe (k r)
  end.

(** A call that has invoked [fetchFn] as invocation number [n] can only
    complete with what that invocation settles to, and never invokes
    [fetchFn] again. *)
Fixpoint answers {D} (f : fetcher) (n : nat) (p : prog D value) : Prop :=
  match p with
  | Ret v => f n = Fulfilled v
  | Throw e => f n = Rejected e
  | FsAccess k => ∀ r, answers f n (k r)
  | FsMkdir k => ∀ r, answers f n (k r)
  | FsReadFile k => ∀ r, answers f n (k r)
  | FsWriteFile _ k => ∀ r, answers f n (k r)
  | DateNow k => ∀ r, answers f n (k r)
  | Invoke _ _ => False
  | AwaitPromise p k => settles p = f n ∧ answers f n (k (settles p))
  | Resume k => answers f n k
  | Writing _ k => ∀ r, answers f n (k r)
  end.

(** A call that has not invoked [fetchFn] yet: it cannot have failed; if it
    returns it returns what it found in the cache; if it invokes [fetchFn]
    it goes on as [answers] says. *)
Fixpoint unfetched {D} (f : fetcher) (p : prog D value) : Prop :=
  match p with
  | Ret _ => True
  | Throw _ => False
  | FsAccess k => ∀ r, unfetched f (k r)
  | FsMkdir k => ∀ r, unfetched f (k r)
  | FsReadFile k => ∀ r, unfetched f (k r)
  | FsWriteFile _ k => ∀ r, unfetched f (k r)
  | DateNow k => ∀ r, unfetched f (k r)
  | Invoke g k => ∀ n, answers f n (k {| pid := n; settles := g n |})
  | AwaitPromise _ _ => False
  | Resume k => unfetched f k
  | Writing _ k => ∀ r, unfetched f (k r)
  end.

(** The invariant of a pool of [getCachedOrFetch] calls: nobody is logged
    twice, and every call is either not logged and [unfetched], or logged
    once, as invocation [n], and [answers] for it. *)
Definition pool_inv {D} (f : fetcher) (c : config D value) : Prop :=
  NoDup (invoked (fst c)) ∧
  (∀ tid, tid ∈ invoked (fst c) → (tid < length (snd c))%nat) ∧
  ∀ tid p, snd c !! tid = Some p →
    ((tid ∉ invoked (fst c)) ∧ unfetched f p) ∨
    (∃ n, invoked (fst c) !! n = Some tid ∧ answers f n p).

(** [N] calls of [getCachedOrFetch(key, fetchFn)] made at once, and where
    the event loop may take them. *)
Definition concurrent_calls (key : string) (f : fetcher) (N : nat)
    (w0 : world Cache.doc) : config Cache.doc value :=
  spawn 0 (replicate N (Cache.getCachedOrFetch key f false)) w0.

(** The world two calls made at once on an empty cache can end in. *)
Definition two_fetches_world : world Cache.doc :=
  stored {[ "k" := {| Cache.timestamp := 0; Cache.data := JNum 1 |} ]} 0 [0%nat; 1%nat] 2.

Definition two_fetches_pool : list (prog Cache.doc value) :=
  [Ret (JNum 0); Ret (JNum 1)].

(** Scenario C of the specification: three entries, one of them expired at
    time [100000000]. *)
Definition three_entries : gmap string Cache.entry :=
  {[ "a" := {| Cache.timestamp := 0; Cache.data := JStr "old" |};
     "b" := {| Cache.timestamp := 50000000; Cache.data := JArr [] |};
     "c" := {| Cache.timestamp := 99999999; Cache.data := JNull |} ]}.

Definition two_entries : gmap string Cache.entry :=
  {[ "b" := {| Cache.timestamp := 50000000; Cache.data := JArr [] |};
     "c" := {| Cache.timestamp := 99999999; Cache.data := JNull |} ]}.

(** Two recipes. *)
Definition teriyaki : Favorites.recipe :=
  {| Favorites.idMeal := "52772";
     Favorites.fields := [("strMeal", JStr "Teriyaki Chicken Casserole")] |}.

Definition arrabiata : Favorites.recipe :=
  {| Favorites.idMeal := "52771";
     Favorites.fields := [("strMeal", JStr "Spicy Arrabiata Penne")] |}.

(** A retrieval function that tells its invocations apart: the [n]-th one
    resolves with the number [n]. *)
Definition counting : fetcher := λ n, Fulfilled (JNum (Z.of_nat n)).

(** One turn of one call: it is resumed, or its text lands on the text of
    another call. *)
Definition turn {D A} (tid : nat) (p : prog D A) (w : world D)
    (p' : prog D A) (w' : world D) : Prop :=
  resume tid p w = Some (p', w') ∨
  ∃ t k t', p = Writing t k ∧ (t' = t ∨ ∃ raw, t' = Malformed raw) ∧
            run_sync tid (k (Normal ())) (written t' w) = (p', w').

(** What [getCachedOrFetch] does with what the lookup returned: the rest
    of its body. *)
Definition after_lookup (key : string) (fetchFn : fetcher) (cachedData : value)
    : prog Cache.doc value :=
  if truthy cachedData then mret cachedData
  else
    freshData ← await_call fetchFn;
    await (Cache.saveToCache key freshData);;
    mret freshData.

(** The world [w0] after the calls [0], ..., [m - 1] have invoked
    [fetchFn], in that order, and nothing else has happened. *)
Definition all_fetching (m : nat) (w0 : world Cache.doc) : world Cache.doc :=
  {| disk := disk w0; read_only := read_only w0; clock := clock w0;
     invoked := seq 0 m; writes := writes w0 |}.

(** Every call of the pool has invoked [fetchFn], call [tid] as invocation
    number [tid], and can only complete with what that invocation settles
    to. *)
Definition all_fetched (f : fetcher) (c : config Cache.doc value) : Prop :=
  invoked (fst c) = seq 0 (length (snd c)) ∧
  ∀ tid p, snd c !! tid = Some p → answers f tid p.

(** A call at the end of its work: it is about to call [fs.writeFile] with
    the text [t], or that call is under way, or it has returned [a]; and it
    returns [a] once the text is written. *)
Definition writing_out {D A} (t : text D) (a : A) (p : prog D A) : Prop :=
  (∃ k, p = FsWriteFile t k ∧ k (Normal ()) = Ret a) ∨
  (∃ k, p = Writing t k ∧ k (Normal ()) = Ret a) ∨
  p = Ret a.

Definition unopened {D A} (p : prog D A) : Prop := ∃ t k, p = FsWriteFile t k.

(** What is left of the file after texts [t0] and [t1] have been written
    to it by calls that may overlap: one of the two, or text that does not
    parse. *)
Definition one_or_garbled {D} (t0 t1 : text D) (f : file D) : Prop :=
  f = Holds t0 ∨ f = Holds t1 ∨ ∃ raw, f = Holds (Malformed raw).

(** Two calls that have read the same text [t] of the file and are
    writing out [t0] and [t1]: either neither has opened the file, which
    still holds [t], or the file has been emptied and holds what the two
    calls have made of it since. *)
Definition racing {D A} (t t0 t1 : text D) (a0 a1 : A) (c : config D A) : Prop :=
  read_only (fst c) = false ∧
  ∃ p0 p1, snd c = [p0; p1] ∧ writing_out t0 a0 p0 ∧ writing_out t1 a1 p1 ∧
    ((unopened p0 ∧ unopened p1 ∧ disk (fst c) = Holds t) ∨
     (¬ (unopened p0 ∧ unopened p1) ∧ one_or_garbled t0 t1 (disk (fst c)))).

(** The single-flight guarantee, in the words of the specification: when
    all [N] calls miss, [fetchFn] is invoked exactly once and all callers
    complete alike. *)
Definition single_flight_guarantee : Prop :=
  ∀ key f N w0 w pool,
    (0 < N)%nat →
    invoked w0 = [] →
    rtc sched (concurrent_calls key f N w0) (w, pool) →
    (∀ tid, (tid < N)%nat → tid ∈ invoked w) →
    Forall (λ p, finished p = true) pool →
    length (invoked w) = 1%nat ∧ ∃ r, Forall (λ p, p = r) pool.

(** A program that keeps a property [P] of documents: provided every
    document it reads has [P], every document it writes has [P], and every
    value it returns has [Q]. *)
Fixpoint keeps {D A} (P : D → Prop) (Q : A → Prop) (p : prog D A) : Prop :=
  match p with
  | Ret a => Q a
  | Throw _ => True
  | FsAccess k => ∀ r, keeps P Q (k r)
  | FsMkdir k => ∀ r, keeps P Q (k r)
  | FsReadFile k => ∀ r, (∀ d, r = Normal (Encoded d) → P d) → keeps P Q (k r)
  | FsWriteFile t k => (∀ d, t = Encoded d → P d) ∧ ∀ r, keeps P Q (k r)
  | DateNow k => ∀ r, keeps P Q (k r)
  | Invoke _ k => ∀ r, keeps P Q (k r)
  | AwaitPromise _ k => ∀ r, keeps P Q (k r)
  | Resume k => keeps P Q k
  | Writing t k => (∀ d, t = Encoded d → P d) ∧ ∀ r, keeps P Q (k r)
  end.

(** The document of the backing file, when it holds one, has [P]. *)
Definition holds_only {D} (P : D → Prop) (w : world D) : Prop :=
  ∀ d, disk w = Holds (Encoded d) → P d.

(** The identifiers of a favorites document are unique. *)
Definition unique_ids (d : list Favorites.recipe) : Prop := NoDup (Favorites.ids d).

(** A call of one of the functions of [favorites.js] that return a
    boolean. *)
Definition favorites_call (p : prog Favorites.doc bool) : Prop :=
  (∃ r, p = Favorites.addFavorite r) ∨
  (∃ id, p = Favorites.removeFavorite id) ∨
  (∃ id, p = Favorites.isInFavorites id).

(** The meals a response carries: those of an [ok] response whose body is
    JSON with an array under [meals]; none otherwise. *)
Definition meals_of (h : Api.http) : list Api.meal :=
  match h with
  | Api.Answer r =>
      if Api.ok r then
        match Api.payload r with
        | Api.Data (Some l) => l
        | _ => []
        end
      else []
  | Api.Unreachable => []
  end.

(** What a lookup makes of a response: [None] when the request failed (the
    network, the status, or the body). *)
Definition reply (h : Api.http) : option Api.lookup :=
  match h with
  | Api.Answer r =>
      if Api.ok r then
        match Api.payload r with
        | Api.Data meals => Some (Api.first_meal meals)
        | Api.NotJson => None
        end
      else None
  | Api.Unreachable => None
  end.

(** The meals the network answers to the letters, the first letter being
    request number [n]. *)
Fixpoint letter_answers (nw : Api.network) (n : nat) (letters : list string)
    : list (list Api.meal) :=
  match letters with
  | [] => []
  | letter :: rest =>
      meals_of (nw n (Api.SearchByFirstLetter letter)) :: letter_answers nw (S n) rest
  end.

(** The state of a run after [k] more requests [r] and [ms] more
    milliseconds of sleep. *)
Definition after (s : Api.net) (requests : list Api.request) (ms : Z) : Api.net :=
  {| Api.sent := Api.sent s ++ requests; Api.slept := Api.slept s + ms |}.

(** Backing files that do not exist yet, a favorites file whose text does
    not parse, and a cache file that cannot be written. *)
Definition absent_cache : world Cache.doc :=
  {| disk := Absent; read_only := false; clock := 1000; invoked := []; writes := 0 |}.

Definition absent_favorites : world Favorites.doc :=
  {| disk := Absent; read_only := false; clock := 0; invoked := []; writes := 0 |}.

Definition corrupt_favorites : world Favorites.doc :=
  {| disk := Holds (Malformed "[oops"); read_only := false; clock := 0;
     invoked := []; writes := 0 |}.

Definition read_only_cache : world Cache.doc :=
  {| disk := Holds (Encoded three_entries); read_only := true; clock := 100000000;
     invoked := []; writes := 0 |}.

(** A recipe with a category, a run of [api.js] that has done nothing yet,
    a network whose first request fails, and one that always answers with
    the same two meals. *)
Definition chicken_handi : Api.meal :=
  {| Favorites.idMeal := "52795";
     Favorites.fields := [("strMeal", JStr "Chicken Handi");
                          ("strCategory", JStr "Chicken")] |}.

Definition nothing_sent : Api.net := {| Api.sent := []; Api.slept := 0 |}.

Definition flaky : Api.network :=
  λ n _, match n with
         | O => Api.Unreachable
         | _ => Api.Answer {| Api.ok := true; Api.status := 200;
                              Api.payload := Api.Data (Some [teriyaki]) |}
         end.

Definition steady : Api.network :=
  λ _ _, Api.Answer {| Api.ok := true; Api.status := 200;
                       Api.payload := Api.Data (Some [chicken_handi; teriyaki; chicken_handi]) |}.

(** ** Running a program: the laws of [run] *)

Section RunLaws.
Context {D : Type}.
Implicit Types w : world D.

Lemma run_bind {A B} tid (p : prog D A) (f : A → prog D B) w :
  run tid (p ≫= f) w =
  match run tid p w with
  | (Normal a, w') => run tid (f a) w'
  | (Abrupt e, w') => (Abrupt e, w')
  end.
Proof.
  unfold mbind, prog_bind. revert w.
  induction p as [a|e|k IH|k IH|k IH|t k IH|k IH|g k IH|pr k IH|k IH|t k IH];
    intros w; simpl; auto.
Qed.

Lemma run_try_catch {A} tid (p : prog D A) (h : error → prog D A) w :
  run tid (try_catch p h) w =
  match run tid p w with
  | (Normal a, w') => (Normal a, w')
  | (Abrupt e, w') => run tid (h e) w'
  end.
Proof.
  revert w.
  induction p as [a|e|k IH|k IH|k IH|t k IH|k IH|g k IH|pr k IH|k IH|t k IH];
    intros w; simpl; auto.
Qed.

Lemma run_await {A} tid (p : prog D A) w : run tid (await p) w = run tid p w.
Proof.
  unfold await. rewrite run_try_catch.
  change (bind p (λ a, Resume (Ret a))) with (p ≫= λ a, Resume (Ret a)).
  rewrite run_bind. by destruct (run tid p w) as [[a|e] w'].
Qed.

(** A [try] whose handler returns a value never fails. *)
Lemma run_try_catch_total {A} tid (p : prog D A) (a0 : A) w :
  ∃ a w', run tid (try_catch p (λ _, mret a0)) w = (Normal a, w').
Proof.
  rewrite run_try_catch. destruct (run tid p w) as [[a|e] w']; simpl; eauto.
Qed.

End RunLaws.


(** ** The favorites store, one call at a time *)

Section FavoritesFacts.
Import Favorites.
Implicit Types (d : list recipe) (r : recipe).

Lemma run_getFavorites_stored tid d now log n :
  run tid getFavorites (stored d now log n) = (Normal d, stored d now log n).
Proof. reflexivity. Qed.

Lemma existsb_ids r d :
  existsb (λ fav, String.eqb (idMeal fav) (idMeal r)) d = true ↔ idMeal r ∈ ids d.
Proof.
  unfold ids. rewrite existsb_exists, list_elem_of_fmap. split.
  - intros (x & Hx & Heq). apply String.eqb_eq in Heq.
    exists x. split; [done|]. by apply list_elem_of_In.
  - intros (x & Heq & Hx). exists x. split; [by apply list_elem_of_In|].
    apply String.eqb_eq. done.
Qed.

Lemma run_addFavorite_stored tid r d now log n :
  run tid (addFavorite r) (stored d now log n) =
  if existsb (λ fav, String.eqb (idMeal fav) (idMeal r)) d
  then (Normal false, stored d now log n)
  else (Normal true, stored (d ++ [r]) now log (S n)).
Proof.
  unfold addFavorite. cbn.
  destruct (existsb _ d); reflexivity.
Qed.

Lemma filter_other_ids recipeId d :
  (length d =? length (List.filter (λ fav, negb (String.eqb (idMeal fav) recipeId)) d))%nat
    = true ↔ recipeId ∉ ids d.
Proof.
  rewrite Nat.eqb_eq. unfold ids.
  induction d as [|x d IH]; simpl.
  - split; [intros _; apply not_elem_of_nil | done].
  - rewrite not_elem_of_cons.
    pose proof (List.filter_length_le
      (λ fav, negb (String.eqb (idMeal fav) recipeId)) d) as Hle.
    destruct (String.eqb_spec (idMeal x) recipeId) as [Heq|Hne]; simpl.
    + split; [lia | intros [Hx _]; congruence].
    + rewrite <- IH. split.
      * intros Hlen. split; [congruence | lia].
      * intros [_ Hlen]. lia.
Qed.

Lemma run_removeFavorite_stored tid recipeId d now log n :
  run tid (removeFavorite recipeId) (stored d now log n) =
  let updatedFavorites :=
    List.filter (λ fav, negb (String.eqb (idMeal fav) recipeId)) d in
  if (length d =? length updatedFavorites)%nat
  then (Normal false, stored d now log n)
  else (Normal true, stored updatedFavorites now log (S n)).
Proof.
  unfold removeFavorite. cbn.
  destruct (_ =? _)%nat; reflexivity.
Qed.

Lemma ids_filter_other recipeId d :
  recipeId ∉ ids (List.filter (λ fav, negb (String.eqb (idMeal fav) recipeId)) d).
Proof.
  unfold ids. rewrite list_elem_of_fmap. intros (x & Heq & Hx).
  apply list_elem_of_In, List.filter_In in Hx as [_ Hx].
  apply negb_true_iff, String.eqb_neq in Hx. congruence.
Qed.

(** C5. On every favorites document: when a record with the identifier
    of [r] is already there, [addFavorite r] returns [false] and leaves the
    document as it was (nothing is written); otherwise it returns [true]
    and the document is the old one with [r] appended at the end.  Either
    way a document with unique identifiers stays one. *)
Theorem addFavorite_spec tid r d now log n :
  (idMeal r ∈ ids d →
     run tid (addFavorite r) (stored d now log n)
     = (Normal false, stored d now log n)) ∧
  (idMeal r ∉ ids d →
     run tid (addFavorite r) (stored d now log n)
     = (Normal true, stored (d ++ [r]) now log (S n))) ∧
  (NoDup (ids d) →
     ∃ d', disk (run tid (addFavorite r) (stored d now log n)).2 = Holds (Encoded d')
           ∧ NoDup (ids d')).
Proof.
  rewrite run_addFavorite_stored.
  destruct (existsb _ d) eqn:Hex.
  - apply existsb_ids in Hex. split_and!; [done | done |].
    intros Hnd. by exists d.
  - assert (idMeal r ∉ ids d) as Hnew.
    { rewrite <- existsb_ids. by rewrite Hex. }
    split_and!; [done | done |].
    intros Hnd. exists (d ++ [r]). split; [done|].
    unfold ids in *. rewrite fmap_app. simpl.
    apply NoDup_app. split_and!; [done | | apply NoDup_singleton].
    intros x Hx Hx'. apply list_elem_of_singleton in Hx'. by subst.
Qed.

(** C8. On every favorites document: when no record has the identifier
    [recipeId], [removeFavorite recipeId] returns [false] and leaves the
    document as it was; otherwise it returns [true] and the document keeps,
    in order, exactly the records with another identifier.  Whatever the
    state of the backing file, the call returns a boolean: it never
    throws. *)
Theorem removeFavorite_spec tid recipeId d now log n :
  (recipeId ∉ ids d →
     run tid (removeFavorite recipeId) (stored d now log n)
     = (Normal false, stored d now log n)) ∧
  (recipeId ∈ ids d →
     ∃ d', run tid (removeFavorite recipeId) (stored d now log n)
           = (Normal true, stored d' now log (S n))
           ∧ d' = List.filter (λ fav, negb (String.eqb (idMeal fav) recipeId)) d
           ∧ recipeId ∉ ids d') ∧
  (∀ w, ∃ b w', run tid (removeFavorite recipeId) w = (Normal b, w')).
Proof.
  rewrite run_removeFavorite_stored. cbv zeta.
  destruct (_ =? _)%nat eqn:Hlen.
  - apply filter_other_ids in Hlen. split_and!; [done | done |].
    intros w. apply run_try_catch_total.
  - assert (recipeId ∈ ids d) as Hin.
    { destruct (decide (recipeId ∈ ids d)) as [|Hn]; [done|].
      apply filter_other_ids in Hn. congruence. }
    split_and!; [done | |].
    + intros _. eexists. split_and!; [done | done | apply ids_filter_other].
    + intros w. apply run_try_catch_total.
Qed.

End FavoritesFacts.

(** ** The cache, one call at a time *)

Section CacheFacts.
Import Cache.
Implicit Types (d cache : gmap string entry) (w : world doc).

Lemma run_getFromCache_holds tid key d w :
  disk w = Holds (Encoded d) →
  run tid (getFromCache key) w =
  (Normal match d !! key with
          | Some e => if bool_decide (fresh (clock w) e) then data e else JNull
          | None => JNull
          end, w).
Proof.
  intros Hd. unfold getFromCache. cbn. unfold do_readFile. rewrite Hd. cbn.
  destruct (d !! key) as [e|]; cbn; [|done].
  unfold fresh. by destruct (bool_decide _).
Qed.

(** A lookup only reads: whatever the state of the backing file it returns
    a value and leaves the world as it found it. *)
Lemma run_getFromCache_reads tid key w :
  ∃ v, run tid (getFromCache key) w = (Normal v, w).
Proof.
  destruct (disk w) as [| |[raw|d]] eqn:Hd.
  - exists JNull. unfold getFromCache. cbn. unfold do_readFile. by rewrite Hd.
  - exists JNull. unfold getFromCache. cbn. unfold do_readFile. by rewrite Hd.
  - exists JNull. unfold getFromCache. cbn. unfold do_readFile. by rewrite Hd.
  - eexists. by apply run_getFromCache_holds.
Qed.

Lemma run_for_in_cons tid key keys cache removed w :
  run tid (for_in (key :: keys) cache removed) w =
  match cache !! key with
  | Some e =>
      if bool_decide (CACHE_DURATION ≤ clock w - timestamp e)
      then run tid (for_in keys (delete key cache) (S removed)) w
      else run tid (for_in keys cache removed) w
  | None => (Abrupt TypeError, w)
  end.
Proof.
  cbn. destruct (cache !! key) as [e|]; [|done]. by destruct (bool_decide _).
Qed.

Lemma run_for_in tid keys cache removed w :
  NoDup keys →
  (∀ k, k ∈ keys → is_Some (cache !! k)) →
  run tid (for_in keys cache removed) w =
  (Normal (filter (λ kv, kv.1 ∈ keys → fresh (clock w) kv.2) cache,
           (removed +
            size (filter (λ kv, kv.1 ∈ keys ∧ ¬ fresh (clock w) kv.2) cache))%nat),
   w).
Proof.
  revert cache removed.
  induction keys as [|key keys IH]; intros cache removed Hnd Hin.
  - change (run tid (for_in [] cache removed) w) with (Normal (cache, removed), w).
    rewrite map_filter_id.
    2:{ intros i x _ Hi. simpl in Hi. by apply elem_of_nil in Hi. }
    assert (filter (λ kv : string * entry, kv.1 ∈ [] ∧ ¬ fresh (clock w) kv.2) cache = ∅)
      as ->.
    { apply map_empty. intros i. apply map_lookup_filter_None. right.
      intros x _ [Hi _]. simpl in Hi. by apply elem_of_nil in Hi. }
    rewrite map_size_empty. by rewrite Nat.add_0_r.
  - apply NoDup_cons in Hnd as [Hkey Hnd].
    destruct (Hin key) as [e He]; [left|].
    rewrite run_for_in_cons, He.
    case_bool_decide as Hexp.
    + rewrite IH; [|done|].
      2:{ intros k Hk. rewrite lookup_delete_ne; [|by intros ->].
          apply Hin. by right. }
      do 3 f_equal.
      * apply map_filter_strong_ext_1. intros i x. simpl.
        destruct (decide (i = key)) as [->|Hne].
        -- rewrite lookup_delete_eq. split; [by intros [_ ?]|].
           intros [Hf Hx]. rewrite He in Hx. injection Hx as <-.
           exfalso. specialize (Hf ltac:(left)). unfold fresh in Hf. lia.
        -- rewrite lookup_delete_ne by done. rewrite elem_of_cons. naive_solver.
      * assert (filter (λ kv : string * entry,
                  kv.1 ∈ key :: keys ∧ ¬ fresh (clock w) kv.2) cache
                = <[key := e]> (filter (λ kv : string * entry,
                    kv.1 ∈ keys ∧ ¬ fresh (clock w) kv.2) (delete key cache)))
          as ->.
        { apply map_eq. intros i. apply option_eq. intros x.
          rewrite map_lookup_filter_Some. simpl.
          destruct (decide (i = key)) as [->|Hne].
          - rewrite lookup_insert_eq, He. split; [naive_solver|].
            intros [= <-]. split_and!; [done | left | unfold fresh; lia].
          - rewrite lookup_insert_ne by done.
            rewrite map_lookup_filter_Some, lookup_delete_ne by done. simpl.
            rewrite elem_of_cons. naive_solver. }
        rewrite map_size_insert_None; [lia|].
        apply map_lookup_filter_None. left. apply lookup_delete_eq.
    + rewrite IH; [|done|].
      2:{ intros k Hk. apply Hin. by right. }
      do 3 f_equal.
      * apply map_filter_ext. intros i x Hx. simpl. rewrite elem_of_cons.
        split; [|naive_solver].
        intros Hf [->|Hi]; [|by apply Hf].
        rewrite He in Hx. injection Hx as <-. unfold fresh. lia.
      * f_equal. f_equal. apply map_filter_ext. intros i x Hx. simpl.
        rewrite elem_of_cons. split; [naive_solver|].
        intros [[->|Hi] Hnf]; [|done].
        rewrite He in Hx. injection Hx as <-. exfalso. apply Hnf.
        unfold fresh. lia.
Qed.

Lemma fst_map_to_list_lookup d k e :
  d !! k = Some e → k ∈ (map_to_list d).*1.
Proof.
  intros Hk. apply list_elem_of_fmap. exists (k, e).
  split; [done|]. by apply elem_of_map_to_list.
Qed.

Lemma kept_lookup now d k e :
  kept now d !! k = Some e ↔ d !! k = Some e ∧ now - timestamp e < CACHE_DURATION.
Proof. unfold kept. by rewrite map_lookup_filter_Some. Qed.

Lemma dropped_lookup now d k e :
  dropped now d !! k = Some e ↔ d !! k = Some e ∧ CACHE_DURATION ≤ now - timestamp e.
Proof.
  unfold dropped. rewrite map_lookup_filter_Some. unfold fresh. simpl.
  split; intros [? ?]; (split; [done | lia]).
Qed.

Lemma kept_nothing_dropped now d : size (dropped now d) = 0%nat → kept now d = d.
Proof.
  intros Hsz. apply map_size_empty_inv in Hsz.
  apply map_filter_id. intros k e Hk. simpl.
  destruct (decide (fresh now e)) as [|Hn]; [done|].
  assert (dropped now d !! k = Some e) as Hd.
  { unfold dropped. by apply map_lookup_filter_Some. }
  rewrite Hsz in Hd. by rewrite lookup_empty in Hd.
Qed.

Lemma run_clearExpiredCache_stored tid d now log n :
  run tid clearExpiredCache (stored d now log n) =
  (Normal (size (dropped now d)),
   if bool_decide (0 < size (dropped now d))%nat
   then stored (kept now d) now log (S n)
   else stored d now log n).
Proof.
  unfold clearExpiredCache.
  rewrite run_try_catch, run_bind.
  change (run tid fs_readFile (stored d now log n))
    with (Normal (Encoded d), stored d now log n).
  cbv beta iota. rewrite run_bind.
  change (run tid (JSON_parse (Encoded d)) (stored d now log n))
    with (Normal d, stored d now log n).
  cbv beta iota. rewrite run_bind.
  rewrite run_for_in.
  2:{ apply NoDup_fst_map_to_list. }
  2:{ intros k [[k' e] [-> Hk]]%list_elem_of_fmap.
      apply elem_of_map_to_list in Hk. by exists e. }
  change (clock (stored d now log n)) with now.
  assert (filter (λ kv : string * entry,
            kv.1 ∈ (map_to_list d).*1 → fresh now kv.2) d = kept now d) as ->.
  { apply map_filter_ext. intros k e Hk. simpl.
    split; [|done]. intros Hf. apply Hf. by eapply fst_map_to_list_lookup. }
  assert (filter (λ kv : string * entry,
            kv.1 ∈ (map_to_list d).*1 ∧ ¬ fresh now kv.2) d = dropped now d) as ->.
  { apply map_filter_ext. intros k e Hk. simpl.
    split; [by intros [_ ?]|]. intros Hf. split; [|done].
    by eapply fst_map_to_list_lookup. }
  cbv beta iota. rewrite Nat.add_0_l.
  case_bool_decide; reflexivity.
Qed.

(** C6. On every cache document, a sweep at [now] returns the number of
    entries whose window has elapsed ([CACHE_DURATION ≤ now - timestamp]);
    the document afterwards holds exactly the other entries, each as it
    was; the file is written once when that number is positive and not at
    all when it is zero. *)
Theorem clearExpiredCache_spec tid d now log n :
  run tid clearExpiredCache (stored d now log n) =
    (Normal (size (dropped now d)),
     stored (kept now d) now log
       (if bool_decide (0 < size (dropped now d))%nat then S n else n))
  ∧ (∀ k e, kept now d !! k = Some e
            ↔ d !! k = Some e ∧ now - timestamp e < CACHE_DURATION)
  ∧ (∀ k e, dropped now d !! k = Some e
            ↔ d !! k = Some e ∧ CACHE_DURATION ≤ now - timestamp e).
Proof.
  split_and!; [|apply kept_lookup|apply dropped_lookup].
  rewrite run_clearExpiredCache_stored.
  case_bool_decide as Hpos; [done|].
  rewrite kept_nothing_dropped; [done | lia].
Qed.

Lemma set_property_assignable key e d :
  assignable key d → set_property key e d = <[key := e]> d.
Proof.
  intros Hk. unfold set_property. case_bool_decide as Hp; [|done].
  destruct Hp as [-> Hnone]. destruct Hk as [Hk|[x Hx]]; [done | congruence].
Qed.

Lemma set_property_proto e d :
  d !! "__proto__" = None → set_property "__proto__" e d = d.
Proof. intros Hnone. unfold set_property. by rewrite bool_decide_eq_true_2. Qed.

Lemma set_property_other key key' e d :
  key' ≠ key → set_property key e d !! key' = d !! key'.
Proof.
  intros Hne. unfold set_property. case_bool_decide; [done|].
  by rewrite lookup_insert_ne.
Qed.

Lemma run_saveToCache_holds tid key v d w :
  disk w = Holds (Encoded d) → read_only w = false →
  run tid (saveToCache key v) w =
  (Normal true,
   {| disk := Holds (Encoded (set_property key {| timestamp := clock w; data := v |} d));
      read_only := false; clock := clock w;
      invoked := invoked w; writes := S (writes w) |}).
Proof.
  destruct w as [dk ro ck lg wr]. simpl. intros -> ->. reflexivity.
Qed.

Lemma run_saveToCache_absent tid key v w :
  disk w = Absent → read_only w = false →
  run tid (saveToCache key v) w =
  (Normal true,
   {| disk := Holds (Encoded (set_property key {| timestamp := clock w; data := v |} ∅));
      read_only := false; clock := clock w;
      invoked := invoked w; writes := S (S (writes w)) |}).
Proof.
  destruct w as [dk ro ck lg wr]. simpl. intros -> ->. reflexivity.
Qed.

(** Where [saveToCache] gives up: the text of the file does not parse, the
    file cannot be read, or cannot be written.  It then returns [false]. *)
Lemma run_saveToCache_malformed tid key v raw w :
  disk w = Holds (Malformed raw) →
  run tid (saveToCache key v) w = (Normal false, w).
Proof.
  destruct w as [dk ro ck lg wr]. simpl. intros ->. reflexivity.
Qed.

Lemma run_saveToCache_unreadable tid key v w :
  disk w = Unreadable →
  run tid (saveToCache key v) w = (Normal false, w).
Proof.
  destruct w as [dk ro ck lg wr]. simpl. intros ->. reflexivity.
Qed.

Lemma run_saveToCache_read_only tid key v w :
  read_only w = true →
  run tid (saveToCache key v) w = (Normal false, w).
Proof.
  destruct w as [dk ro ck lg wr]. simpl. intros ->.
  destruct dk as [| |[raw|d]]; reflexivity.
Qed.

Lemma run_await_call tid f w :
  run tid (await_call f) w =
  (match f (length (invoked w)) with
   | Fulfilled v => Normal v
   | Rejected e => Abrupt e
   end, logged tid w).
Proof. cbn. by destruct (f (length (invoked w))). Qed.

Lemma run_saveToCache_returns tid key v w :
  ∃ b w', run tid (saveToCache key v) w = (Normal b, w').
Proof. apply run_try_catch_total. Qed.

(** The two paths of [getCachedOrFetch]. *)
Lemma run_getCachedOrFetch_hit tid key f c w :
  run tid (getFromCache key) w = (Normal c, w) →
  truthy c = true →
  run tid (getCachedOrFetch key f false) w = (Normal c, w).
Proof.
  intros Hget Hc. unfold getCachedOrFetch.
  rewrite run_bind. simpl negb. cbv iota.
  rewrite run_await, Hget. by rewrite Hc.
Qed.

Lemma run_getCachedOrFetch_fetch tid key f force w :
  (force = true ∨
   ∃ c, run tid (getFromCache key) w = (Normal c, w) ∧ truthy c = false) →
  run tid (getCachedOrFetch key f force) w =
  match f (length (invoked w)) with
  | Fulfilled v => (Normal v, (run tid (saveToCache key v) (logged tid w)).2)
  | Rejected e => (Abrupt e, logged tid w)
  end.
Proof.
  intros Hmiss. unfold getCachedOrFetch. rewrite run_bind.
  assert (∃ c, run tid (if negb force then await (getFromCache key) else mret JNull) w
               = (Normal c, w) ∧ truthy c = false) as (c & -> & Hc).
  { destruct Hmiss as [->|(c & Hget & Hc)].
    - by exists JNull.
    - destruct force; [by exists JNull|].
      exists c. simpl negb. cbv iota. by rewrite run_await. }
  rewrite Hc. rewrite run_bind, run_await_call.
  destruct (f (length (invoked w))) as [v|e]; [|done].
  rewrite run_bind, run_await.
  destruct (run_saveToCache_returns tid key v (logged tid w)) as (b & w' & ->).
  reflexivity.
Qed.

Lemma run_saveToCache_serves tid key v d w :
  serves w d →
  ∃ n, run tid (saveToCache key v) w =
       (Normal true,
        {| disk := Holds (Encoded
                     (set_property key {| timestamp := clock w; data := v |} d));
           read_only := false; clock := clock w;
           invoked := invoked w; writes := n |}).
Proof.
  intros [Hro [Hd|[Hd ->]]]; eexists.
  - by apply run_saveToCache_holds.
  - by apply run_saveToCache_absent.
Qed.

Lemma run_saveToCache_refuses tid key v w :
  refuses w → run tid (saveToCache key v) w = (Normal false, w).
Proof.
  intros [Hro|[Hd|[raw Hd]]].
  - by apply run_saveToCache_read_only.
  - by apply run_saveToCache_unreadable.
  - by apply (run_saveToCache_malformed _ _ _ raw).
Qed.

(** What a lookup that misses returns is falsy. *)
Lemma run_getFromCache_misses tid key w :
  misses key w →
  ∃ c, run tid (getFromCache key) w = (Normal c, w) ∧ truthy c = false.
Proof.
  intros Hmiss. destruct (disk w) as [| |[raw|d]] eqn:Hd.
  1-3: exists JNull; split; [|done];
       unfold getFromCache; cbn; unfold do_readFile; by rewrite Hd.
  eexists. split; [by apply (run_getFromCache_holds _ _ d)|].
  destruct (d !! key) as [e|] eqn:He; [|done].
  case_bool_decide as Hf; [|done]. by apply (Hmiss d e).
Qed.

(** C9. When the entry of [key] is stale at the time of the call
    ([CACHE_DURATION ≤ now - timestamp]), [getFromCache key] returns
    [null] and leaves the world, and so the document with its stale
    entry, exactly as it was. *)
Theorem getFromCache_stale tid key d e w :
  disk w = Holds (Encoded d) →
  d !! key = Some e →
  CACHE_DURATION ≤ clock w - timestamp e →
  run tid (getFromCache key) w = (Normal JNull, w).
Proof.
  intros Hd He Hstale. rewrite (run_getFromCache_holds _ _ d) by done.
  rewrite He. rewrite bool_decide_eq_false_2; [done|]. unfold fresh. lia.
Qed.

Lemma run_saveToCache_true tid key v w w' :
  run tid (saveToCache key v) w = (Normal true, w') →
  read_only w = false ∧
  disk w' = Holds (Encoded (set_property key {| timestamp := clock w; data := v |}
                     match disk w with Holds (Encoded d) => d | _ => ∅ end)).
Proof.
  destruct (read_only w) eqn:Hro.
  { rewrite run_saveToCache_read_only by done. intros [=]. }
  destruct (disk w) as [| |[raw|d]] eqn:Hd.
  - rewrite run_saveToCache_absent by done. by intros [= <-].
  - rewrite run_saveToCache_unreadable by done. intros [=].
  - rewrite (run_saveToCache_malformed _ _ _ raw) by done. intros [=].
  - rewrite (run_saveToCache_holds _ _ _ d) by done. by intros [= <-].
Qed.

Lemma invoked_saveToCache tid key v w :
  invoked (run tid (saveToCache key v) w).2 = invoked w.
Proof.
  destruct (read_only w) eqn:Hro.
  { by rewrite run_saveToCache_read_only. }
  destruct (disk w) as [| |[raw|d]] eqn:Hd.
  - by rewrite run_saveToCache_absent.
  - by rewrite run_saveToCache_unreadable.
  - by rewrite (run_saveToCache_malformed _ _ _ raw).
  - by rewrite (run_saveToCache_holds _ _ _ d).
Qed.

(** C7, amended.  At a location in working order (one that can be written
    and is absent or holds a cache document [d]), for every key but
    ["__proto__"] (and for that one too when [d] has an entry of that
    name): [saveToCache key v] returns [true], and a [getFromCache key] that
    follows at a time [t] less than [CACHE_DURATION] after the save returns
    [v].  At a location that cannot be written, or whose file cannot be
    read or holds text that does not parse, [saveToCache] returns [false]
    and changes nothing.  And for the key ["__proto__"], when [d] has no
    entry of that name, [saveToCache] returns [true] and has stored
    nothing: the file holds [d], and the lookup that follows returns
    [null]. *)
Theorem saveToCache_getFromCache tid tid' key v w :
  (∀ d t, serves w d → assignable key d → t - clock w < CACHE_DURATION →
     ∃ w', run tid (saveToCache key v) w = (Normal true, w') ∧
           run tid' (getFromCache key) (set_clock t w') = (Normal v, set_clock t w')) ∧
  (refuses w → run tid (saveToCache key v) w = (Normal false, w)) ∧
  (∀ d t, serves w d → key = "__proto__" → d !! key = None →
     ∃ w', run tid (saveToCache key v) w = (Normal true, w') ∧
           disk w' = Holds (Encoded d) ∧
           run tid' (getFromCache key) (set_clock t w') = (Normal JNull, set_clock t w')).
Proof.
  split_and!.
  - intros d t Hw Hk Ht.
    destruct (run_saveToCache_serves tid key v d w Hw) as [n ->].
    eexists. split; [done|].
    erewrite run_getFromCache_holds by reflexivity.
    rewrite set_property_assignable by done.
    rewrite lookup_insert_eq. simpl.
    rewrite bool_decide_eq_true_2; [done|]. unfold fresh. simpl. lia.
  - apply run_saveToCache_refuses.
  - intros d t Hw -> Hnone.
    destruct (run_saveToCache_serves tid "__proto__" v d w Hw) as [n ->].
    rewrite set_property_proto by done.
    eexists. split_and!; [done | done |].
    erewrite run_getFromCache_holds by reflexivity. by rewrite Hnone.
Qed.

(** C2, amended.  When the entry of [key] is fresh and its payload is
    truthy, [getCachedOrFetch key fetchFn false] returns the payload and
    leaves the world as it was: [fetchFn] is not invoked and nothing is
    written. *)
Theorem getCachedOrFetch_fresh_truthy tid key f d e w :
  disk w = Holds (Encoded d) →
  d !! key = Some e →
  fresh (clock w) e →
  truthy (data e) = true →
  run tid (getCachedOrFetch key f false) w = (Normal (data e), w).
Proof.
  intros Hd He Hfresh Hv. apply run_getCachedOrFetch_hit; [|done].
  rewrite (run_getFromCache_holds _ _ d) by done.
  by rewrite He, bool_decide_eq_true_2.
Qed.

(** C3. Whatever the state of the backing file: when the lookup misses
    (or is skipped, [forceRefresh] being set) and the invocation of
    [fetchFn] rejects with [e], the call fails with [e], and the world
    after it is the world before it but for the record of the invocation:
    the file holds what it held and nothing was written.  The only calls
    that do not end so are those whose lookup hits: they return the fresh,
    truthy payload the document holds and leave everything as it was,
    [fetchFn] not being invoked. *)
Theorem getCachedOrFetch_rejected tid key f force e w :
  f (length (invoked w)) = Rejected e →
  (force = true ∨ misses key w →
     run tid (getCachedOrFetch key f force) w
     = (Abrupt e,
        {| disk := disk w; read_only := read_only w; clock := clock w;
           invoked := invoked w ++ [tid]; writes := writes w |})) ∧
  (force = false → ¬ misses key w →
     ∃ d c, disk w = Holds (Encoded d) ∧ d !! key = Some c ∧ fresh (clock w) c ∧
            truthy (data c) = true ∧
            run tid (getCachedOrFetch key f force) w = (Normal (data c), w)).
Proof.
  intros Hf. split.
  - intros Hmiss. rewrite run_getCachedOrFetch_fetch.
    + by rewrite Hf.
    + destruct Hmiss as [->|Hmiss]; [by left|]. right.
      by apply run_getFromCache_misses.
  - intros -> Hhit.
    destruct (disk w) as [| |[raw|d]] eqn:Hd.
    1-3: exfalso; apply Hhit; intros d0 e0 Hd0; congruence.
    destruct (d !! key) as [c|] eqn:Hc.
    2:{ exfalso. apply Hhit. intros d0 e0 Hd0 He0.
        rewrite Hd in Hd0. injection Hd0 as <-. congruence. }
    destruct (decide (fresh (clock w) c)) as [Hfresh|Hstale].
    2:{ exfalso. apply Hhit. intros d0 e0 Hd0 He0 Hf0.
        rewrite Hd in Hd0. injection Hd0 as <-.
        rewrite Hc in He0. injection He0 as <-. done. }
    destruct (truthy (data c)) eqn:Hv.
    2:{ exfalso. apply Hhit. intros d0 e0 Hd0 He0 _.
        rewrite Hd in Hd0. injection Hd0 as <-.
        rewrite Hc in He0. by injection He0 as <-. }
    exists d, c. split_and!; [done..|].
    apply run_getCachedOrFetch_hit; [|done].
    rewrite (run_getFromCache_holds _ _ d) by done.
    by rewrite Hc, bool_decide_eq_true_2.
Qed.

(** C4, amended.  Whatever the state of the backing file: when the lookup
    misses (or is skipped, [forceRefresh] being set) and [fetchFn] resolves
    with [v], whatever [v] is, the call invokes [fetchFn] once and returns
    [v].  What it has persisted by then depends on the location:
    - in working order (it can be written and is absent or holds a cache
      document [d]) and the key is not ["__proto__"] (or [d] has an entry of
      that name): the file holds [d] with, for [key], the entry of payload
      [v] stamped with the time of the call, a fresh one;
    - in working order, the key is ["__proto__"] and [d] has no entry of
      that name: the file holds [d], nothing was stored;
    - it cannot be written, or the file cannot be read or does not parse:
      nothing is persisted and nothing written, the world is as before but
      for the record of the invocation. *)
Theorem getCachedOrFetch_miss_persists tid key f force v w :
  force = true ∨ misses key w →
  f (length (invoked w)) = Fulfilled v →
  ∃ w', run tid (getCachedOrFetch key f force) w = (Normal v, w') ∧
        invoked w' = invoked w ++ [tid] ∧
        (∀ d, serves w d → assignable key d →
           disk w' = Holds (Encoded (<[key := {| timestamp := clock w; data := v |}]> d)) ∧
           fresh (clock w') {| timestamp := clock w; data := v |}) ∧
        (∀ d, serves w d → key = "__proto__" → d !! key = None →
           disk w' = Holds (Encoded d)) ∧
        (refuses w →
           w' = {| disk := disk w; read_only := read_only w; clock := clock w;
                   invoked := invoked w ++ [tid]; writes := writes w |}).
Proof.
  intros Hmiss Hf.
  rewrite run_getCachedOrFetch_fetch.
  2:{ destruct Hmiss as [->|Hmiss]; [by left|]. right.
      by apply run_getFromCache_misses. }
  rewrite Hf. eexists. split; [done|]. split_and!.
  - apply invoked_saveToCache.
  - intros d Hw Hk.
    destruct (run_saveToCache_serves tid key v d (logged tid w)) as [n ->].
    { destruct Hw as [Hro Hd]. by split. }
    simpl. rewrite set_property_assignable by done. split; [done|].
    unfold fresh, CACHE_DURATION. simpl. lia.
  - intros d Hw -> Hnone.
    destruct (run_saveToCache_serves tid "__proto__" v d (logged tid w)) as [n ->].
    { destruct Hw as [Hro Hd]. by split. }
    simpl. by rewrite set_property_proto.
  - intros Href. by rewrite run_saveToCache_refuses.
Qed.

End CacheFacts.

(** ** Loading from a backing file that holds no document *)

Section LoadFacts.

Lemma run_getFavorites_unusable tid (w : world Favorites.doc) :
  unusable (disk w) → ∃ w', run tid Favorites.getFavorites w = (Normal [], w').
Proof.
  destruct w as [dk ro ck lg wr]. simpl. intros Hd.
  destruct dk as [| |[raw|d]]; [| | |done].
  - destruct ro; eexists; reflexivity.
  - eexists; reflexivity.
  - eexists; reflexivity.
Qed.

Lemma run_getFromCache_unusable tid key (w : world Cache.doc) :
  unusable (disk w) → run tid (Cache.getFromCache key) w = (Normal JNull, w).
Proof.
  destruct w as [dk ro ck lg wr]. simpl. intros Hd.
  destruct dk as [| |[raw|d]]; [reflexivity | reflexivity | reflexivity | done].
Qed.

(** C10. When the backing file is absent, cannot be read, or holds text
    that does not parse: [getFavorites] returns the empty list and
    [getFromCache] returns [null]; neither throws. *)
Theorem load_unusable tid key (wf : world Favorites.doc) (wc : world Cache.doc) :
  unusable (disk wf) →
  unusable (disk wc) →
  (∃ wf', run tid Favorites.getFavorites wf = (Normal [], wf')) ∧
  run tid (Cache.getFromCache key) wc = (Normal JNull, wc).
Proof.
  intros Hf Hc. split.
  - by apply run_getFavorites_unusable.
  - by apply run_getFromCache_unusable.
Qed.

End LoadFacts.

(** ** The effects of a program: composition rules *)

Section Effects.
Context {D : Type}.

Ltac by_cases p :=
  induction p as [a|e|k IH|k IH|k IH|t k IH|k IH|g k IH|pr k IH|k IH|t k IH];
  simpl; try done; eauto.

Lemma safe_quiet {A} (p : prog D A) : safe p → quiet p.
Proof. by_cases p. Qed.

Lemma quiet_bind {A B} (p : prog D A) (f : A → prog D B) :
  quiet p → (∀ a, quiet (f a)) → quiet (p ≫= f).
Proof. unfold mbind, prog_bind. intros Hp Hf. by_cases p. Qed.

Lemma quiet_try_catch {A} (p : prog D A) h :
  quiet p → (∀ e, quiet (h e)) → quiet (try_catch p h).
Proof. intros Hp Hh. by_cases p. Qed.

Lemma quiet_await {A} (p : prog D A) : quiet p → quiet (await p).
Proof.
  intros Hp. unfold await. apply quiet_try_catch; [|done].
  by apply (quiet_bind p).
Qed.

Lemma safe_bind {A B} (p : prog D A) (f : A → prog D B) :
  safe p → (∀ a, safe (f a)) → safe (p ≫= f).
Proof. unfold mbind, prog_bind. intros Hp Hf. by_cases p. Qed.

Lemma safe_try_catch {A} (p : prog D A) h :
  quiet p → (∀ e, safe (h e)) → safe (try_catch p h).
Proof. intros Hp Hh. by_cases p. Qed.

Lemma safe_await {A} (p : prog D A) : safe p → safe (await p).
Proof. unfold await. by_cases p. Qed.

Lemma answers_bind {A} f n (p : prog D A) (c : A → prog D value) :
  safe p → (∀ a, answers f n (c a)) → answers f n (p ≫= c).
Proof. unfold mbind, prog_bind. intros Hp Hk. by_cases p. Qed.

Lemma unfetched_bind {A} f (p : prog D A) (c : A → prog D value) :
  safe p → (∀ a, unfetched f (c a)) → unfetched f (p ≫= c).
Proof. unfold mbind, prog_bind. intros Hp Hk. by_cases p. Qed.

Lemma quiet_settle {A} (r : completion A) : quiet (D := D) (settle r).
Proof. by destruct r. Qed.

Lemma quiet_fs_access : quiet (D := D) fs_access.
Proof. intros r. apply quiet_settle. Qed.

Lemma quiet_fs_mkdir : quiet (D := D) fs_mkdir.
Proof. intros r. apply quiet_settle. Qed.

Lemma quiet_fs_readFile : quiet (D := D) fs_readFile.
Proof. intros r. apply quiet_settle. Qed.

Lemma quiet_fs_writeFile (t : text D) : quiet (fs_writeFile t).
Proof. intros r. apply quiet_settle. Qed.

Lemma quiet_Date_now : quiet (D := D) Date_now.
Proof. by intros r. Qed.

Lemma quiet_JSON_parse (t : text D) : quiet (JSON_parse t).
Proof. by destruct t. Qed.

Lemma safe_mret {A} (a : A) : safe (D := D) (mret a).
Proof. done. Qed.

Lemma quiet_mret {A} (a : A) : quiet (D := D) (mret a).
Proof. done. Qed.

End Effects.

Create HintDb effects.
#[export] Hint Resolve quiet_bind quiet_try_catch quiet_await safe_bind
  safe_try_catch safe_await quiet_fs_access quiet_fs_mkdir quiet_fs_readFile
  quiet_fs_writeFile quiet_Date_now quiet_JSON_parse safe_mret quiet_mret : effects.

(** ** The event loop: schedules, and calls that run to their end *)

Section Scheduling.
Context {D A : Type}.
Implicit Types (w : world D) (pool : list (prog D A)) (p : prog D A).

Lemma play_sound schedule (c c' : config D A) :
  play schedule c = Some c' → rtc sched c c'.
Proof.
  revert c. induction schedule as [|tid rest IH]; intros [w pool]; simpl.
  - intros [= <-]. apply rtc_refl.
  - destruct (pool !! tid) as [p|] eqn:Hp; [|done].
    destruct (resume tid p w) as [[p' w']|] eqn:Hres; [|done].
    intros Hplay. eapply rtc_l; [by eapply sched_resume|]. by apply IH.
Qed.

(** One turn of the event loop is a turn of one call, or time passing. *)
Lemma sched_turn (c c' : config D A) :
  sched c c' →
  (∃ tid p p', snd c !! tid = Some p ∧ snd c' = <[tid := p']> (snd c)
               ∧ turn tid p (fst c) p' (fst c')) ∨
  (snd c' = snd c ∧ ∃ d, fst c' = set_clock d (fst c)).
Proof.
  intros [w pool tid p p' w' Hp Hres | w pool d Hd
         | w pool tid t k t' p' w' Hp Hocc Ht Hrun]; simpl.
  - left. exists tid, p, p'. split_and!; [done | done | by left].
  - right. eauto.
  - left. exists tid, (Writing t k), p'. split_and!; [done | done |].
    right. by exists t, k, t'.
Qed.

Lemma sched_resume_at tid p p' w w' pool :
  (tid < length pool)%nat →
  resume tid p w = Some (p', w') →
  sched (w, <[tid := p]> pool) (w', <[tid := p']> pool).
Proof.
  intros Htid Hres. rewrite <- (list_insert_insert_eq pool tid p' p).
  eapply sched_resume; [by apply list_lookup_insert_eq | done].
Qed.

Lemma sched_overlap_at tid t k w pool :
  (tid < length pool)%nat →
  occupied w = true →
  sched (w, <[tid := Writing t k]> pool)
        ((run_sync tid (k (Normal ())) (written t w)).2,
         <[tid := (run_sync tid (k (Normal ())) (written t w)).1]> pool).
Proof.
  intros Htid Hocc.
  rewrite <- (list_insert_insert_eq pool tid
                (run_sync tid (k (Normal ())) (written t w)).1 (Writing t k)).
  eapply (sched_overlap _ _ tid t k t); [by apply list_lookup_insert_eq | done | by left |].
  by destruct (run_sync _ _ _).
Qed.

(** One call alone: opening the file and writing the text is
    [do_writeFile]. *)
Lemma occupied_emptied w : occupied (emptied w) = false.
Proof. unfold occupied, emptied. simpl. by destruct (disk w). Qed.

Lemma written_emptied (t : text D) w : written t (emptied w) = written t w.
Proof. unfold written, emptied. simpl. by destruct (disk w). Qed.

Lemma do_writeFile_written (t : text D) w :
  read_only w = false → do_writeFile t w = (Normal (), written t w).
Proof. intros Hro. unfold do_writeFile, written. by rewrite Hro. Qed.

(** From the end of its synchronous stretch, a call can be resumed until
    it has finished. *)
Lemma run_sync_can_finish p tid w pool :
  (tid < length pool)%nat →
  ∃ w' p', rtc sched ((run_sync tid p w).2, <[tid := (run_sync tid p w).1]> pool)
                     (w', <[tid := p']> pool)
           ∧ finished p' = true.
Proof.
  intros Htid. revert w.
  assert (∀ q w0 w (p0 : prog D A),
            resume tid p0 w = Some (run_sync tid q w0) →
            (∃ w' p', rtc sched ((run_sync tid q w0).2,
                                 <[tid := (run_sync tid q w0).1]> pool)
                                (w', <[tid := p']> pool) ∧ finished p' = true) →
            ∃ w' p', rtc sched (w, <[tid := p0]> pool) (w', <[tid := p']> pool)
                     ∧ finished p' = true) as Hstep.
  { intros q w0 w p0 Hres (w' & p' & Hrtc & Hfin). exists w', p'. split; [|done].
    eapply rtc_l; [|exact Hrtc]. apply sched_resume_at; [done|].
    rewrite Hres. by destruct (run_sync tid q w0). }
  induction p as [a|e|k IH|k IH|k IH|t k IH|k IH|g k IH|pr k IH|k IH|t k IH];
    intros w; simpl.
  - do 2 eexists. split; [apply rtc_refl | done].
  - do 2 eexists. split; [apply rtc_refl | done].
  - apply (Hstep (k (do_access w)) w); [done | apply IH].
  - apply (Hstep (k (Normal ())) w); [done | apply IH].
  - apply (Hstep (k (do_readFile w)) w); [done | apply IH].
  - destruct (read_only w) eqn:Hro.
    + apply (Hstep (k (Abrupt EACCES)) w); [simpl; by rewrite Hro | apply IH].
    + destruct (IH (Normal ()) (written t w)) as (w' & p' & Hrtc & Hfin).
      exists w', p'. split; [|done].
      eapply rtc_l.
      { apply sched_resume_at; [done|]. simpl. by rewrite Hro. }
      eapply rtc_l; [|exact Hrtc]. apply sched_resume_at; [done|].
      simpl. rewrite occupied_emptied, written_emptied.
      by destruct (run_sync _ _ _).
  - apply IH.
  - apply IH.
  - apply (Hstep (k (settles pr)) w); [done | apply IH].
  - apply (Hstep k w); [done | apply IH].
  - destruct (occupied w) eqn:Hocc.
    + destruct (IH (Normal ()) (written t w)) as (w' & p' & Hrtc & Hfin).
      exists w', p'. split; [|done].
      eapply rtc_l; [|exact Hrtc]. by apply sched_overlap_at.
    + apply (Hstep (k (Normal ())) (written t w)); [simpl; by rewrite Hocc | apply IH].
Qed.

Lemma call_can_finish p tid w pool :
  pool !! tid = Some p →
  ∃ w' p', rtc sched (w, pool) (w', <[tid := p']> pool) ∧ finished p' = true.
Proof.
  intros Hp.
  assert (tid < length pool)%nat as Htid by (by eapply lookup_lt_Some).
  pose proof (run_sync_can_finish p tid w pool Htid) as Hfin.
  cut (∃ w' p', rtc sched (w, <[tid := p]> pool) (w', <[tid := p']> pool)
                ∧ finished p' = true).
  { by rewrite (list_insert_id pool tid p Hp). }
  clear Hp.
  destruct p as [a|e|k|k|k|t k|k|g k|pr k|k|t k]; simpl in Hfin; try exact Hfin.
  - destruct (run_sync_can_finish (k (clock w)) tid w pool Htid) as (w' & p' & Hrtc & Hf).
    exists w', p'. split; [|done]. eapply rtc_l; [|exact Hrtc].
    apply sched_resume_at; [done|]. simpl. by destruct (run_sync _ _ _).
  - destruct (run_sync_can_finish (k (do_invoke tid g w).1) tid (do_invoke tid g w).2
                pool Htid) as (w' & p' & Hrtc & Hf).
    exists w', p'. split; [|done]. eapply rtc_l; [|exact Hrtc].
    apply sched_resume_at; [done|]. simpl. by destruct (run_sync _ _ _).
Qed.

(** Whatever the state of the pool, the calls in flight can all be run
    to their end. *)
Lemma calls_can_finish w pool :
  ∃ w' pool', rtc sched (w, pool) (w', pool')
              ∧ Forall (λ p, finished p = true) pool'.
Proof.
  assert (∀ n, (n ≤ length pool)%nat →
            ∃ w' pool', rtc sched (w, pool) (w', pool')
                        ∧ length pool' = length pool
                        ∧ ∀ i p, (i < n)%nat → pool' !! i = Some p → finished p = true)
    as Hn.
  { induction n as [|n IH]; intros Hle.
    - exists w, pool. split_and!; [apply rtc_refl | done | lia].
    - destruct IH as (w1 & pool1 & Hrtc & Hlen & Hdone); [lia|].
      destruct (lookup_lt_is_Some_2 pool1 n) as [p Hp]; [lia|].
      destruct (call_can_finish p n w1 pool1 Hp) as (w2 & p2 & Hrtc2 & Hfin).
      exists w2, (<[n := p2]> pool1). split_and!.
      + by etrans.
      + by rewrite length_insert.
      + intros i q Hi Hq. destruct (decide (i = n)) as [->|Hne].
        * rewrite list_lookup_insert_eq in Hq by lia. by injection Hq as <-.
        * rewrite list_lookup_insert_ne in Hq by done.
          apply (Hdone i); [lia | done]. }
  destruct (Hn (length pool)) as (w' & pool' & Hrtc & Hlen & Hdone); [done|].
  exists w', pool'. split; [done|].
  apply Forall_lookup. intros i p Hp. apply (Hdone i); [|done].
  rewrite <- Hlen. by eapply lookup_lt_Some.
Qed.

End Scheduling.

(** ** Several calls of [getCachedOrFetch] in flight *)

Section Concurrent.
Import Cache.
Implicit Types (w : world doc) (pool : list (prog doc value)).

Lemma quiet_initializeCache : quiet initializeCache.
Proof. unfold initializeCache. auto 6 with effects. Qed.

Lemma safe_getFromCache key : safe (getFromCache key).
Proof.
  unfold getFromCache. apply safe_try_catch; [|done].
  apply quiet_bind; [auto with effects|]. intros data.
  apply quiet_bind; [auto with effects|]. intros cache.
  destruct (cache !! key) as [e|]; [|done].
  apply quiet_bind; [auto with effects|]. intros now.
  by case_bool_decide.
Qed.

Lemma safe_saveToCache key v : safe (saveToCache key v).
Proof.
  pose proof quiet_initializeCache.
  unfold saveToCache. auto 12 with effects.
Qed.

(** Every call starts [unfetched]. *)
Lemma unfetched_getCachedOrFetch key f :
  unfetched f (getCachedOrFetch key f false).
Proof.
  unfold getCachedOrFetch. simpl negb. cbv iota.
  apply unfetched_bind; [apply safe_await, safe_getFromCache|].
  intros c. destruct (truthy c); [done|].
  intros n. simpl. split; [done|].
  destruct (f n) as [v|e] eqn:Hf; simpl; [|done].
  apply (answers_bind f n (await (saveToCache key v))); [|done].
  apply safe_await, safe_saveToCache.
Qed.

(** The synchronous stretch of a call, and the resumption of a call,
    keep the call's side of the invariant. *)
Lemma run_sync_answers tid f n (p : prog doc value) w :
  answers f n p →
  answers f n (run_sync tid p w).1 ∧ invoked (run_sync tid p w).2 = invoked w.
Proof.
  revert w.
  induction p as [a|e|k IH|k IH|k IH|t k IH|k IH|g k IH|pr k IH|k IH|t k IH];
    intros w Hp; simpl in *; try done.
  by apply IH.
Qed.

Lemma run_sync_unfetched tid f (p : prog doc value) w :
  unfetched f p →
  (unfetched f (run_sync tid p w).1 ∧ invoked (run_sync tid p w).2 = invoked w) ∨
  (answers f (length (invoked w)) (run_sync tid p w).1 ∧
   invoked (run_sync tid p w).2 = invoked w ++ [tid]).
Proof.
  revert w.
  induction p as [a|e|k IH|k IH|k IH|t k IH|k IH|g k IH|pr k IH|k IH|t k IH];
    intros w Hp; simpl in *; try (by left).
  - by apply IH.
  - right.
    destruct (run_sync_answers tid f (length (invoked w))
                (k {| pid := length (invoked w); settles := g (length (invoked w)) |})
                (logged tid w)) as [Ha Hi]; [by apply Hp|].
    split; [done|]. by rewrite Hi.
Qed.

Lemma turn_answers tid f n (p p' : prog doc value) w w' :
  answers f n p →
  turn tid p w p' w' →
  answers f n p' ∧ invoked w' = invoked w.
Proof.
  intros Hp Hturn.
  assert (∀ q w0, answers f n q → invoked w0 = invoked w →
                  run_sync tid q w0 = (p', w') →
                  answers f n p' ∧ invoked w' = invoked w) as Hgo.
  { intros q w0 Hq Hi Hrun.
    destruct (run_sync_answers tid f n q w0 Hq) as [Ha Hi'].
    rewrite Hrun in Ha, Hi'. simpl in *. split; [done | congruence]. }
  destruct Hturn as [Hres|(t & k & t' & -> & _ & Hrun)].
  2:{ apply (Hgo (k (Normal ())) (written t' w)); [apply Hp | done | exact Hrun]. }
  destruct p as [a|e|k|k|k|t k|k|g k|pr k|k|t k]; simpl in Hp, Hres; try done.
  - injection Hres as Hres. eapply Hgo; [ | | exact Hres]; [apply Hp | done].
  - injection Hres as Hres. eapply Hgo; [ | | exact Hres]; [apply Hp | done].
  - injection Hres as Hres. eapply Hgo; [ | | exact Hres]; [apply Hp | done].
  - destruct (read_only w).
    + injection Hres as Hres. eapply Hgo; [ | | exact Hres]; [apply Hp | done].
    + by injection Hres as <- <-.
  - injection Hres as Hres. eapply Hgo; [ | | exact Hres]; [apply Hp | done].
  - injection Hres as Hres. eapply Hgo; [ | | exact Hres]; [apply (proj2 Hp) | done].
  - injection Hres as Hres. eapply Hgo; [ | | exact Hres]; [apply Hp | done].
  - destruct (occupied w); [done|]. injection Hres as Hres.
    eapply Hgo; [ | | exact Hres]; [apply Hp | done].
Qed.

Lemma turn_unfetched tid f (p p' : prog doc value) w w' :
  unfetched f p →
  turn tid p w p' w' →
  (unfetched f p' ∧ invoked w' = invoked w) ∨
  (answers f (length (invoked w)) p' ∧ invoked w' = invoked w ++ [tid]).
Proof.
  intros Hp Hturn.
  assert (∀ q w0, unfetched f q → invoked w0 = invoked w →
                  run_sync tid q w0 = (p', w') →
                  (unfetched f p' ∧ invoked w' = invoked w) ∨
                  (answers f (length (invoked w)) p' ∧ invoked w' = invoked w ++ [tid]))
    as Hgo.
  { intros q w0 Hq Hi Hrun.
    destruct (run_sync_unfetched tid f q w0 Hq) as [[Hu Hi']|[Ha Hi']];
      rewrite Hrun in *; simpl in *; rewrite Hi in *; [by left | by right]. }
  destruct Hturn as [Hres|(t & k & t' & -> & _ & Hrun)].
  2:{ apply (Hgo (k (Normal ())) (written t' w)); [apply Hp | done | exact Hrun]. }
  destruct p as [a|e|k|k|k|t k|k|g k|pr k|k|t k]; simpl in Hp, Hres; try done.
  - injection Hres as Hres. eapply Hgo; [ | | exact Hres]; [apply Hp | done].
  - injection Hres as Hres. eapply Hgo; [ | | exact Hres]; [apply Hp | done].
  - injection Hres as Hres. eapply Hgo; [ | | exact Hres]; [apply Hp | done].
  - destruct (read_only w).
    + injection Hres as Hres. eapply Hgo; [ | | exact Hres]; [apply Hp | done].
    + injection Hres as <- <-. by left.
  - injection Hres as Hres. eapply Hgo; [ | | exact Hres]; [apply Hp | done].
  - injection Hres as Hres.
    apply (Hgo (Invoke g k) w); [exact Hp | done | exact Hres].
  - injection Hres as Hres. eapply Hgo; [ | | exact Hres]; [apply Hp | done].
  - destruct (occupied w); [done|]. injection Hres as Hres.
    eapply Hgo; [ | | exact Hres]; [apply Hp | done].
Qed.

(** The event loop keeps the invariant of the pool. *)
Lemma sched_pool_inv f (c c' : config doc value) :
  sched c c' → pool_inv f c → pool_inv f c'.
Proof.
  intros Hstep (Hnd & Hlt & Hcalls).
  destruct c as [w pool], c' as [w' pool'].
  pose proof (sched_turn _ _ Hstep) as Ht. simpl in Ht.
  destruct Ht as [(tid & p & p' & Hp & -> & Hturn)|[-> [d ->]]];
    unfold pool_inv; simpl in *.
  2:{ split_and!; done. }
  assert (tid < length pool)%nat as Htid by (by eapply lookup_lt_Some).
  destruct (Hcalls tid p Hp) as [[Hnew Hu]|(n & Hn & Ha)].
  - destruct (turn_unfetched tid f p p' w w' Hu Hturn) as [[Hu' Hi]|[Ha' Hi]].
    + rewrite Hi. split_and!; [done | |].
      * intros t Ht. rewrite length_insert. by apply Hlt.
      * intros t q Hq. destruct (decide (t = tid)) as [->|Hne].
        -- rewrite list_lookup_insert_eq in Hq by done. injection Hq as <-.
           by left.
        -- rewrite list_lookup_insert_ne in Hq by done. by apply Hcalls.
    + rewrite Hi. split_and!.
      * apply NoDup_app. split_and!; [done | | apply NoDup_singleton].
        intros t Ht Ht'. apply list_elem_of_singleton in Ht'. by subst.
      * intros t Ht. rewrite length_insert.
        apply elem_of_app in Ht as [Ht|Ht]; [by apply Hlt|].
        apply list_elem_of_singleton in Ht. by subst.
      * intros t q Hq. destruct (decide (t = tid)) as [->|Hne].
        -- rewrite list_lookup_insert_eq in Hq by done. injection Hq as <-.
           right. exists (length (invoked w)). split; [|done].
           by rewrite lookup_app_r, Nat.sub_diag.
        -- rewrite list_lookup_insert_ne in Hq by done.
           destruct (Hcalls t q Hq) as [[Hnew' Hu']|(m & Hm & Ha'')].
           ++ left. split; [|done]. rewrite elem_of_app, list_elem_of_singleton.
              naive_solver.
           ++ right. exists m. split; [|done]. by apply lookup_app_l_Some.
  - destruct (turn_answers tid f n p p' w w' Ha Hturn) as [Ha' Hi].
    rewrite Hi. split_and!; [done | |].
    + intros t Ht. rewrite length_insert. by apply Hlt.
    + intros t q Hq. destruct (decide (t = tid)) as [->|Hne].
      * rewrite list_lookup_insert_eq in Hq by done. injection Hq as <-.
        right. by exists n.
      * rewrite list_lookup_insert_ne in Hq by done. by apply Hcalls.
Qed.

Lemma sched_length (c c' : config doc value) :
  sched c c' → length (snd c') = length (snd c).
Proof.
  intros Hstep. destruct (sched_turn _ _ Hstep) as [(tid & p & p' & _ & Hp & _)|[Hp _]];
    rewrite Hp; [apply length_insert | done].
Qed.

Lemma rtc_sched_pool_inv f (c c' : config doc value) :
  rtc sched c c' → pool_inv f c → pool_inv f c' ∧ length (snd c') = length (snd c).
Proof.
  induction 1 as [c | c1 c2 c3 Hstep _ IH]; intros Hinv; [done|].
  destruct IH as [Hinv' Hlen]; [by eapply sched_pool_inv|].
  split; [done|]. rewrite Hlen. by apply sched_length.
Qed.

(** Calls made at once all stop at their first [await], the read of the
    cache file: nothing has been invoked yet. *)
Lemma spawn_getCachedOrFetch key f N tid w :
  spawn tid (replicate N (getCachedOrFetch key f false)) w
  = (w, replicate N (getCachedOrFetch key f false)).
Proof.
  revert tid. induction N as [|N IH]; intros tid; [done|].
  simpl replicate. simpl spawn.
  change (run_sync tid (getCachedOrFetch key f false) w)
    with (getCachedOrFetch key f false, w).
  cbv beta iota. by rewrite IH.
Qed.

Lemma pool_inv_concurrent_calls key f N w :
  invoked w = [] → pool_inv f (concurrent_calls key f N w).
Proof.
  intros Hw. unfold concurrent_calls. rewrite spawn_getCachedOrFetch.
  unfold pool_inv. simpl. rewrite Hw. split_and!.
  - apply NoDup_nil_2.
  - intros t Ht. by apply elem_of_nil in Ht.
  - intros t q Hq. apply lookup_replicate in Hq as [-> _].
    left. split; [apply not_elem_of_nil | apply unfetched_getCachedOrFetch].
Qed.

End Concurrent.

Section SingleFlight.
Import Cache.

(** The schedule in which two calls made at once both read the empty
    cache before either has fetched. *)
Lemma two_calls_schedule :
  rtc sched
    (concurrent_calls "k" counting 2 (stored ∅ 0 [] 0))
    (two_fetches_world, two_fetches_pool).
Proof.
  apply (play_sound
           [0; 1; 0; 1; 0; 0; 0; 0; 0; 0; 0; 1; 1; 1; 1; 1; 1; 1]%nat).
  vm_compute. reflexivity.
Qed.

Lemma two_calls_missed tid : (tid < 2)%nat → tid ∈ invoked two_fetches_world.
Proof.
  intros Ht. simpl. destruct tid as [|[|tid]]; [left | right; left | lia].
Qed.

(** C1, as stated, fails.  Two calls for ["k"] made at once on an empty
    cache can both read the file before either has fetched: both miss,
    [fetchFn] is invoked twice, and the callers receive the different
    values [0] and [1] of the two invocations.  So the single-flight
    guarantee does not hold. *)
Lemma two_calls_two_fetches :
  rtc sched
    (concurrent_calls "k" counting 2 (stored ∅ 0 [] 0))
    (two_fetches_world, two_fetches_pool)
  ∧ invoked two_fetches_world = [0%nat; 1%nat]
  ∧ ¬ single_flight_guarantee.
Proof.
  split_and!; [apply two_calls_schedule | done |].
  intros Hsf.
  destruct (Hsf "k" counting 2%nat (stored ∅ 0 [] 0) two_fetches_world
              two_fetches_pool) as [Hone _].
  - lia.
  - done.
  - apply two_calls_schedule.
  - apply two_calls_missed.
  - by repeat constructor.
  - discriminate Hone.
Qed.

(** The first turn of a call is its lookup: the file is read, and the call
    goes on, in a later turn, with what [getFromCache] returns. *)
Lemma resume_lookup tid key f w :
  ∃ c, run tid (getFromCache key) w = (Normal c, w) ∧
       resume tid (getCachedOrFetch key f false) w
       = Some (Resume (after_lookup key f c), w).
Proof.
  destruct w as [dk ro ck lg wr].
  destruct dk as [| |[raw|d]]; try (by exists JNull).
  destruct (d !! key) as [e|] eqn:He.
  - exists (if bool_decide (ck - timestamp e < CACHE_DURATION) then data e else JNull).
    unfold getFromCache, getCachedOrFetch. cbn. rewrite He. cbn.
    destruct (bool_decide (ck - timestamp e < CACHE_DURATION)); by split.
  - exists JNull. unfold getFromCache, getCachedOrFetch. cbn. by rewrite He.
Qed.

(** The second turn of a call whose lookup has missed: [fetchFn] is invoked
    at once, and the call waits for the promise. *)
Lemma resume_after_miss tid key f c w :
  truthy c = false →
  ∃ p, resume tid (Resume (after_lookup key f c)) w = Some (p, logged tid w).
Proof.
  intros Hc. unfold after_lookup. rewrite Hc. eexists. reflexivity.
Qed.

(** The two turns together, with whatever the other calls have done in
    between: the lookup is made at [w] and misses; the call is resumed at
    [w'] and invokes [fetchFn] there. *)
Lemma miss_turns tid key f w w' :
  misses key w →
  ∃ c p, truthy c = false ∧
         resume tid (getCachedOrFetch key f false) w
         = Some (Resume (after_lookup key f c), w) ∧
         resume tid (Resume (after_lookup key f c)) w' = Some (p, logged tid w') ∧
         answers f (length (invoked w')) p.
Proof.
  intros Hmiss.
  destruct (resume_lookup tid key f w) as (c & Hget & Hres1).
  destruct (run_getFromCache_misses tid key w Hmiss) as (c' & Hget' & Hc).
  assert (c' = c) as -> by congruence.
  destruct (resume_after_miss tid key f c w' Hc) as (p & Hres2).
  exists c, p. split_and!; [done..|].
  pose proof (unfetched_getCachedOrFetch key f) as Hu.
  destruct (turn_unfetched tid f _ _ w w Hu (or_introl Hres1)) as [[Hu1 _]|[_ Hi]].
  2:{ exfalso. apply (f_equal length) in Hi. rewrite length_app in Hi.
      simpl in Hi. lia. }
  destruct (turn_unfetched tid f _ _ w' (logged tid w') Hu1 (or_introl Hres2))
    as [[_ Hi]|[Ha _]]; [|done].
  exfalso. apply (f_equal length) in Hi. simpl in Hi. rewrite length_app in Hi.
  simpl in Hi. lia.
Qed.

Lemma lookup_misses_turns tid key f w pool :
  misses key w →
  pool !! tid = Some (getCachedOrFetch key f false) →
  ∃ p, rtc sched (w, pool) (logged tid w, <[tid := p]> pool) ∧
       answers f (length (invoked w)) p.
Proof.
  intros Hmiss Hp.
  destruct (miss_turns tid key f w w Hmiss) as (c & p & _ & Hres1 & Hres2 & Ha).
  exists p. split; [|done].
  eapply rtc_l; [by eapply sched_resume|].
  eapply rtc_l; [|apply rtc_refl].
  rewrite <- (list_insert_insert_eq pool tid p (Resume (after_lookup key f c))).
  eapply sched_resume; [|exact Hres2].
  apply list_lookup_insert_eq. by eapply lookup_lt_Some.
Qed.

(** All the lookups first: from [N] calls made at once on a cache that
    has nothing to serve for the key, the event loop can take the first [m]
    calls through their lookup.  Each of them misses and invokes
    [fetchFn]; the file is not touched. *)
Lemma lookups_first key f N w0 m :
  invoked w0 = [] →
  misses key w0 →
  (m ≤ N)%nat →
  ∃ pool,
    rtc sched (concurrent_calls key f N w0) (all_fetching m w0, pool) ∧
    length pool = N ∧
    (∀ tid p, (tid < m)%nat → pool !! tid = Some p → answers f tid p) ∧
    (∀ tid, (m ≤ tid < N)%nat → pool !! tid = Some (getCachedOrFetch key f false)).
Proof.
  intros Hw0 Hmiss. unfold concurrent_calls. rewrite spawn_getCachedOrFetch.
  induction m as [|m IH]; intros Hm.
  - exists (replicate N (getCachedOrFetch key f false)).
    assert (all_fetching 0 w0 = w0) as ->.
    { destruct w0 as [dk ro ck lg wr]. unfold all_fetching. simpl in *. by subst. }
    split_and!; [apply rtc_refl | apply length_replicate | intros; lia |].
    intros tid Ht. apply lookup_replicate. split; [done | lia].
  - destruct IH as (pool & Hrtc & Hlen & Hdone & Htodo); [lia|].
    destruct (lookup_misses_turns m key f (all_fetching m w0) pool)
      as (p & Hturns & Ha).
    + intros d e Hd He Hf. by apply (Hmiss d e).
    + apply Htodo. lia.
    + exists (<[m := p]> pool).
      assert (logged m (all_fetching m w0) = all_fetching (S m) w0) as Hlog.
      { unfold logged, all_fetching. rewrite seq_S. reflexivity. }
      rewrite Hlog in Hturns. split_and!.
      * by etrans.
      * by rewrite length_insert.
      * intros tid q Ht Hq. destruct (decide (tid = m)) as [->|Hne].
        -- rewrite list_lookup_insert_eq in Hq by lia. injection Hq as <-.
           simpl in Ha. by rewrite length_seq in Ha.
        -- rewrite list_lookup_insert_ne in Hq by done. apply Hdone; [lia | done].
      * intros tid Ht. rewrite list_lookup_insert_ne by lia. apply Htodo. lia.
Qed.

(** Once every call has invoked [fetchFn], nothing is invoked any more,
    and every call completes as its own invocation settles. *)
Lemma sched_all_fetched f (c c' : config doc value) :
  sched c c' → all_fetched f c → all_fetched f c'.
Proof.
  intros Hstep [Hlog Hcalls].
  destruct c as [w pool], c' as [w' pool'].
  pose proof (sched_turn _ _ Hstep) as Ht. simpl in Ht.
  destruct Ht as [(tid & p & p' & Hp & -> & Hturn)|[-> [d ->]]];
    unfold all_fetched; simpl in *.
  2:{ done. }
  destruct (turn_answers tid f tid p p' w w' (Hcalls tid p Hp) Hturn) as [Ha Hi].
  rewrite Hi, length_insert. split; [done|].
  intros t q Hq. destruct (decide (t = tid)) as [->|Hne].
  - rewrite list_lookup_insert_eq in Hq by (by eapply lookup_lt_Some).
    by injection Hq as <-.
  - rewrite list_lookup_insert_ne in Hq by done. by apply Hcalls.
Qed.

Lemma rtc_sched_all_fetched f (c c' : config doc value) :
  rtc sched c c' → all_fetched f c → all_fetched f c' ∧ length (snd c') = length (snd c).
Proof.
  induction 1 as [c | c1 c2 c3 Hstep _ IH]; intros Hinv; [done|].
  destruct IH as [Hinv' Hlen]; [by eapply sched_all_fetched|].
  split; [done|]. rewrite Hlen. by apply sched_length.
Qed.

(** C1, amended.  A call whose lookup misses invokes [fetchFn] itself,
    once, and completes as that invocation settles:
    - running alone, at any world where the lookup misses;
    - among other calls: its first turn is the lookup, made at the world
      [w] of that turn; when that misses, its next turn, at whatever world
      [w'] the other calls have made by then, invokes [fetchFn], and from
      there the call can only complete as that invocation settles.
    So take [N] calls of [getCachedOrFetch(key, fetchFn)] made at once on a
    cache that has nothing to serve for the key.  The event loop can run
    the [N] lookups before anything else: all [N] calls miss, and [fetchFn]
    has then been invoked [N] times, once by each call, call [tid] having
    made invocation number [tid]; the file has not been touched.  Whatever
    the event loop does from there, no further invocation is made, a call
    that returns [v] returns what its own invocation resolved with, a call
    that fails with [e] fails with what its own invocation rejected with,
    and the calls can all be run to their end. *)
Theorem getCachedOrFetch_fetch_per_miss key f N w0 :
  (∀ tid w, misses key w →
     ∃ w', run tid (getCachedOrFetch key f false) w
           = (match f (length (invoked w)) with
              | Fulfilled v => Normal v
              | Rejected e => Abrupt e
              end, w')
           ∧ invoked w' = invoked w ++ [tid]) ∧
  (∀ tid w w', misses key w →
     ∃ c p, resume tid (getCachedOrFetch key f false) w
            = Some (Resume (after_lookup key f c), w) ∧
            resume tid (Resume (after_lookup key f c)) w' = Some (p, logged tid w') ∧
            answers f (length (invoked w')) p) ∧
  (invoked w0 = [] →
   misses key w0 →
   ∃ pool1,
     rtc sched (concurrent_calls key f N w0)
         ({| disk := disk w0; read_only := read_only w0; clock := clock w0;
             invoked := seq 0 N; writes := writes w0 |}, pool1) ∧
     ∀ w pool,
       rtc sched ({| disk := disk w0; read_only := read_only w0; clock := clock w0;
                     invoked := seq 0 N; writes := writes w0 |}, pool1) (w, pool) →
       invoked w = seq 0 N ∧
       (∀ tid v, pool !! tid = Some (Ret v) → f tid = Fulfilled v) ∧
       (∀ tid e, pool !! tid = Some (Throw e) → f tid = Rejected e) ∧
       (∃ w' pool', rtc sched (w, pool) (w', pool')
                    ∧ Forall (λ p, finished p = true) pool')).
Proof.
  split_and!.
  - intros tid w Hmiss.
    rewrite run_getCachedOrFetch_fetch.
    2:{ right. by apply run_getFromCache_misses. }
    destruct (f (length (invoked w))) as [v|e]; [|by eexists].
    eexists. split; [done|]. by rewrite invoked_saveToCache.
  - intros tid w w' Hmiss.
    destruct (miss_turns tid key f w w' Hmiss) as (c & p & _ & Hres1 & Hres2 & Ha).
    by exists c, p.
  - intros Hw0 Hmiss.
    destruct (lookups_first key f N w0 N Hw0 Hmiss) as (pool1 & Hrtc & Hlen & Hdone & _);
      [done|].
    exists pool1. split; [exact Hrtc|].
    intros w pool Hreach.
    destruct (rtc_sched_all_fetched f _ _ Hreach) as [[Hlog Hcalls] Hlen'].
    { split; simpl; [by rewrite Hlen|].
      intros tid p Hp. apply Hdone; [|done]. rewrite <- Hlen. by eapply lookup_lt_Some. }
    simpl in *. split_and!.
    + by rewrite Hlog, Hlen', Hlen.
    + intros tid v Hp. by apply Hcalls in Hp.
    + intros tid e Hp. by apply Hcalls in Hp.
    + apply calls_can_finish.
Qed.

Lemma getCachedOrFetch_fetch_per_miss_witness :
  ∃ pool1,
    rtc sched (concurrent_calls "k" counting 2 (stored ∅ 0 [] 0))
        (stored ∅ 0 [0%nat; 1%nat] 0, pool1) ∧
    ∀ w pool,
      rtc sched (stored ∅ 0 [0%nat; 1%nat] 0, pool1) (w, pool) →
      invoked w = [0%nat; 1%nat] ∧
      (∀ tid v, pool !! tid = Some (Ret v) → counting tid = Fulfilled v) ∧
      (∀ tid e, pool !! tid = Some (Throw e) → counting tid = Rejected e) ∧
      (∃ w' pool', rtc sched (w, pool) (w', pool')
                   ∧ Forall (λ p : prog Cache.doc value, finished p = true) pool').
Proof.
  apply (proj2 (proj2 (getCachedOrFetch_fetch_per_miss "k" counting 2 (stored ∅ 0 [] 0)))).
  - reflexivity.
  - intros d e Hd He. injection Hd as <-. rewrite lookup_empty in He. discriminate He.
Defined.

End SingleFlight.

(** ** Concrete runs *)

Section Scenarios.
Import Cache Favorites.

(** C2, as stated, fails.  The entry of ["k"] is fresh and holds the
    falsy payload [0]; [getCachedOrFetch "k" fetchFn false] does not
    return it: it invokes [fetchFn], returns what that resolves with, and
    overwrites the entry. *)
Lemma getCachedOrFetch_falsy_refetches :
  zero_doc !! "k" = Some zero_entry
  ∧ fresh 1000 zero_entry
  ∧ run 0 (getCachedOrFetch "k" (λ _, Fulfilled (JStr "fetched")) false)
          (stored zero_doc 1000 [] 0)
    = (Normal (JStr "fetched"),
       stored {[ "k" := {| timestamp := 1000; data := JStr "fetched" |} ]}
              1000 [0%nat] 1)
  ∧ JStr "fetched" ≠ data zero_entry.
Proof.
  split_and!.
  - reflexivity.
  - unfold fresh. vm_compute. reflexivity.
  - vm_compute. reflexivity.
  - discriminate.
Qed.

Lemma getCachedOrFetch_fresh_truthy_witness :
  run 0 (getCachedOrFetch "b" counting false) (stored three_entries 100000000 [] 0)
  = (Normal (JArr []), stored three_entries 100000000 [] 0).
Proof.
  apply (getCachedOrFetch_fresh_truthy 0 "b" counting three_entries
           {| timestamp := 50000000; data := JArr [] |}).
  - reflexivity.
  - reflexivity.
  - unfold fresh. vm_compute. reflexivity.
  - reflexivity.
Defined.

Lemma getCachedOrFetch_rejected_witness :
  run 0 (getCachedOrFetch "k" (λ _, Rejected (Raised (JStr "offline"))) false)
        (stored zero_doc 1000 [] 0)
  = (Abrupt (Raised (JStr "offline")), stored zero_doc 1000 [0%nat] 0).
Proof.
  apply (proj1 (getCachedOrFetch_rejected 0 "k" (λ _, Rejected (Raised (JStr "offline")))
                  false (Raised (JStr "offline")) (stored zero_doc 1000 [] 0) eq_refl)).
  right. intros d e Hd He _. injection Hd as <-.
  vm_compute in He. injection He as <-. reflexivity.
Defined.

Lemma getCachedOrFetch_miss_persists_witness :
  ∃ w', run 0 (getCachedOrFetch "a" (λ _, Fulfilled (JArr [])) false)
            (stored three_entries 100000000 [] 0) = (Normal (JArr []), w') ∧
        invoked w' = [0%nat] ∧
        disk w' = Holds (Encoded
          (<["a" := {| timestamp := 100000000; data := JArr [] |}]> three_entries)).
Proof.
  destruct (getCachedOrFetch_miss_persists 0 "a" (λ _, Fulfilled (JArr [])) false (JArr [])
              (stored three_entries 100000000 [] 0))
    as (w' & Hrun & Hlog & Hsaved & _).
  - right. intros d e Hd He Hf. injection Hd as <-.
    vm_compute in He. injection He as <-.
    exfalso. revert Hf. unfold fresh. vm_compute. discriminate.
  - reflexivity.
  - exists w'. split_and!; [exact Hrun | exact Hlog |].
    apply (Hsaved three_entries).
    + split; [reflexivity | left; reflexivity].
    + left. discriminate.
Defined.

Lemma saveToCache_getFromCache_witness :
  ∃ w', run 0 (saveToCache "k" (JStr "v1")) (stored zero_doc 1000 [] 0) = (Normal true, w') ∧
        run 1 (getFromCache "k") (set_clock 2000 w') = (Normal (JStr "v1"), set_clock 2000 w').
Proof.
  apply (proj1 (saveToCache_getFromCache 0 1 "k" (JStr "v1") (stored zero_doc 1000 [] 0))
           zero_doc 2000).
  - split; [reflexivity | left; reflexivity].
  - left. discriminate.
  - vm_compute. reflexivity.
Defined.

(** C7, as stated, fails.  The cache file holds text that does not parse:
    [saveToCache "k" "v1"] catches the error of [JSON.parse], returns
    [false] and writes nothing; the [getFromCache "k"] that follows returns
    [null], not ["v1"]. *)
Lemma saveToCache_corrupt_not_saved :
  run 0 (saveToCache "k" (JStr "v1")) corrupt_cache = (Normal false, corrupt_cache)
  ∧ run 0 (getFromCache "k") corrupt_cache = (Normal JNull, corrupt_cache)
  ∧ JNull ≠ JStr "v1".
Proof. split_and!; [reflexivity | reflexivity | discriminate]. Qed.

(** C4, as stated, fails.  The cache file holds text that does not parse:
    [getCachedOrFetch "k" fetchFn] misses, [fetchFn] resolves with ["v1"],
    and the call returns ["v1"] without having persisted it: the file is as
    before, nothing was written, and a lookup still misses. *)
Lemma getCachedOrFetch_corrupt_not_persisted :
  run 0 (getFromCache "k") corrupt_cache = (Normal JNull, corrupt_cache)
  ∧ run 0 (getCachedOrFetch "k" (λ _, Fulfilled (JStr "v1")) false) corrupt_cache
    = (Normal (JStr "v1"), logged 0 corrupt_cache)
  ∧ disk (logged 0 corrupt_cache) = disk corrupt_cache
  ∧ writes (logged 0 corrupt_cache) = 0%nat
  ∧ run 0 (getFromCache "k") (logged 0 corrupt_cache)
    = (Normal JNull, logged 0 corrupt_cache).
Proof. split_and!; reflexivity. Qed.

Lemma getFromCache_stale_witness :
  run 0 (getFromCache "a") (stored three_entries 100000000 [] 0)
  = (Normal JNull, stored three_entries 100000000 [] 0).
Proof.
  apply (getFromCache_stale 0 "a" three_entries {| timestamp := 0; data := JStr "old" |}).
  - reflexivity.
  - reflexivity.
  - vm_compute. discriminate.
Defined.

(** Scenario C: the sweep returns [1] and leaves the two fresh entries. *)
Lemma clearExpiredCache_spec_witness :
  run 0 clearExpiredCache (stored three_entries 100000000 [] 0)
  = (Normal 1%nat, stored two_entries 100000000 [] 1).
Proof.
  rewrite (proj1 (clearExpiredCache_spec 0 three_entries 100000000 [] 0%nat)).
  vm_compute. reflexivity.
Defined.

Lemma load_unusable_witness :
  (∃ wf', run 0 getFavorites
            {| disk := Absent; read_only := false; clock := 0;
               invoked := []; writes := 0 |} = (Normal [], wf')) ∧
  run 0 (getFromCache "k") (
    {| disk := Holds (Malformed "{oops"); read_only := false; clock := 0;
       invoked := []; writes := 0 |})
  = (Normal JNull,
     {| disk := Holds (Malformed "{oops"); read_only := false; clock := 0;
        invoked := []; writes := 0 |}).
Proof.
  apply (load_unusable 0 "k"
           {| disk := Absent; read_only := false; clock := 0;
              invoked := []; writes := 0 |}
           {| disk := Holds (Malformed "{oops"); read_only := false; clock := 0;
              invoked := []; writes := 0 |}).
  - exact I.
  - exact I.
Defined.

(** Scenario D: the same recipe added twice. *)
Lemma addFavorite_spec_witness :
  run 0 (addFavorite teriyaki) (stored [teriyaki] 0 [] 0)
    = (Normal false, stored [teriyaki] 0 [] 0)
  ∧ run 0 (addFavorite arrabiata) (stored [teriyaki] 0 [] 0)
    = (Normal true, stored [teriyaki; arrabiata] 0 [] 1)
  ∧ ∃ d', disk (run 0 (addFavorite arrabiata) (stored [teriyaki] 0 [] 0)).2
          = Holds (Encoded d') ∧ NoDup (ids d').
Proof.
  split_and!.
  - apply (addFavorite_spec 0 teriyaki [teriyaki] 0 [] 0%nat).
    apply (bool_decide_unpack _). vm_compute. exact I.
  - apply (addFavorite_spec 0 arrabiata [teriyaki] 0 [] 0%nat).
    apply (bool_decide_unpack _). vm_compute. exact I.
  - apply (addFavorite_spec 0 arrabiata [teriyaki] 0 [] 0%nat).
    apply (bool_decide_unpack _). vm_compute. exact I.
Defined.

(** Scenario E: removing an identifier that is not there. *)
Lemma removeFavorite_spec_witness :
  run 0 (removeFavorite "99999") (stored [teriyaki; arrabiata] 0 [] 0)
    = (Normal false, stored [teriyaki; arrabiata] 0 [] 0)
  ∧ ∃ d', run 0 (removeFavorite "52772") (stored [teriyaki; arrabiata] 0 [] 0)
          = (Normal true, stored d' 0 [] 1)
        ∧ d' = List.filter (λ fav, negb (String.eqb (idMeal fav) "52772"))
                 [teriyaki; arrabiata]
        ∧ "52772" ∉ ids d'.
Proof.
  split.
  - apply (removeFavorite_spec 0 "99999" [teriyaki; arrabiata] 0 [] 0%nat).
    apply (bool_decide_unpack _). vm_compute. exact I.
  - apply (removeFavorite_spec 0 "52772" [teriyaki; arrabiata] 0 [] 0%nat).
    apply (bool_decide_unpack _). vm_compute. exact I.
Defined.

(** Scenario A: on an empty cache the value is fetched once and then
    served from the cache. *)
Example scenario_A :
  run 0 (getCachedOrFetch "k1" (λ _, Fulfilled (JStr "v1")) false) (stored ∅ 0 [] 0)
    = (Normal (JStr "v1"),
       stored {[ "k1" := {| timestamp := 0; data := JStr "v1" |} ]} 0 [0%nat] 1)
  ∧ run 1 (getFromCache "k1")
        (stored {[ "k1" := {| timestamp := 0; data := JStr "v1" |} ]} 5000 [0%nat] 1)
    = (Normal (JStr "v1"),
       stored {[ "k1" := {| timestamp := 0; data := JStr "v1" |} ]} 5000 [0%nat] 1).
Proof. split; vm_compute; reflexivity. Qed.

(** Scenario B: an entry stored 25 hours ago is fetched again and
    overwritten with the time of the call. *)
Example scenario_B :
  run 0 (getCachedOrFetch "k1" (λ _, Fulfilled (JStr "v2")) false)
        (stored {[ "k1" := {| timestamp := 0; data := JStr "v1" |} ]}
                (25 * 60 * 60 * 1000) [] 0)
  = (Normal (JStr "v2"),
     stored {[ "k1" := {| timestamp := 25 * 60 * 60 * 1000; data := JStr "v2" |} ]}
            (25 * 60 * 60 * 1000) [0%nat] 1).
Proof. vm_compute. reflexivity. Qed.

End Scenarios.

(** ** More on the cache, one call at a time *)

Section CacheMore.
Import Cache.
Implicit Types (d cache : gmap string entry) (w : world doc).

(** [initializeCache] and [initializeFavorites] are the same code up to
    the empty document they write. *)
Lemma run_initialize {D} tid (empty : D) (w : world D) :
  run tid (try_catch fs_access (λ _, fs_mkdir;; fs_writeFile (JSON_stringify empty))) w =
  match disk w with
  | Absent =>
      if read_only w then (Abrupt EACCES, w)
      else (Normal (),
            {| disk := Holds (Encoded empty); read_only := false; clock := clock w;
               invoked := invoked w; writes := S (writes w) |})
  | _ => (Normal (), w)
  end.
Proof.
  destruct w as [dk ro ck lg wr]. simpl.
  destruct dk as [| |t]; [destruct ro|..]; reflexivity.
Qed.

(** X1. [initializeCache] and [initializeFavorites] leave a file that
    exists exactly as it is, whatever it holds; when the file is absent they
    create it with the empty document, and throw [EACCES], changing
    nothing, when it cannot be created. *)
Theorem initialize_spec tid (wc : world Cache.doc) (wf : world Favorites.doc) :
  (disk wc ≠ Absent → run tid initializeCache wc = (Normal (), wc)) ∧
  (disk wf ≠ Absent → run tid Favorites.initializeFavorites wf = (Normal (), wf)) ∧
  (disk wc = Absent → read_only wc = false →
     run tid initializeCache wc
     = (Normal (), {| disk := Holds (Encoded ∅); read_only := false; clock := clock wc;
                      invoked := invoked wc; writes := S (writes wc) |})) ∧
  (disk wf = Absent → read_only wf = false →
     run tid Favorites.initializeFavorites wf
     = (Normal (), {| disk := Holds (Encoded []); read_only := false; clock := clock wf;
                      invoked := invoked wf; writes := S (writes wf) |})) ∧
  (disk wc = Absent → read_only wc = true →
     run tid initializeCache wc = (Abrupt EACCES, wc)) ∧
  (disk wf = Absent → read_only wf = true →
     run tid Favorites.initializeFavorites wf = (Abrupt EACCES, wf)).
Proof.
  unfold initializeCache, Favorites.initializeFavorites. rewrite !run_initialize.
  split_and!.
  - by destruct (disk wc).
  - by destruct (disk wf).
  - by intros -> ->.
  - by intros -> ->.
  - by intros -> ->.
  - by intros -> ->.
Qed.

(** X2. A lookup of a key whose entry is fresh returns the stored payload,
    whatever the payload is (falsy ones included), and changes nothing. *)
Theorem getFromCache_fresh tid key d e w :
  disk w = Holds (Encoded d) →
  d !! key = Some e →
  clock w - timestamp e < CACHE_DURATION →
  run tid (getFromCache key) w = (Normal (data e), w).
Proof.
  intros Hd He Hf. rewrite (run_getFromCache_holds _ _ d) by done.
  by rewrite He, bool_decide_eq_true_2.
Qed.

(** X3. Whatever the state of the backing file, [getFromCache] returns a
    value and leaves the world exactly as it found it: it never throws,
    never creates the file, never writes, never drops a stale entry.  A key
    without entry gives [null]. *)
Theorem getFromCache_only_reads tid key w :
  (∃ v, run tid (getFromCache key) w = (Normal v, w)) ∧
  (∀ d, disk w = Holds (Encoded d) → d !! key = None →
        run tid (getFromCache key) w = (Normal JNull, w)).
Proof.
  split; [apply run_getFromCache_reads|].
  intros d Hd Hk. rewrite (run_getFromCache_holds _ _ d) by done. by rewrite Hk.
Qed.

(** X4. A successful [saveToCache key v] does not change what a lookup of
    any other key returns. *)
Theorem saveToCache_other_keys tid tid' key key' v w w' t :
  run tid (saveToCache key v) w = (Normal true, w') →
  key' ≠ key →
  (run tid' (getFromCache key') (set_clock t w')).1
  = (run tid' (getFromCache key') (set_clock t w)).1.
Proof.
  intros Hsave Hne.
  apply run_saveToCache_true in Hsave as [_ Hdisk].
  erewrite (run_getFromCache_holds tid' key' _ (set_clock t w')) by exact Hdisk.
  rewrite set_property_other by done.
  destruct (disk w) as [| |[raw|d]] eqn:Hd.
  1-3: rewrite lookup_empty;
       rewrite (run_getFromCache_unusable tid' key' (set_clock t w));
       [done | simpl; by rewrite Hd].
  by erewrite (run_getFromCache_holds tid' key' d (set_clock t w)) by exact Hd.
Qed.

(** X5. Saving a key again replaces its entry: after two saves of the same
    key the document is what the second save alone would have made of the
    original document, stamped with the time of the second save.  (The key
    is not ["__proto__"], or the document has an entry of that name.) *)
Theorem saveToCache_overwrites tid key v1 v2 d t1 t2 log n :
  assignable key d →
  run tid (saveToCache key v2)
      (set_clock t2 (run tid (saveToCache key v1) (stored d t1 log n)).2)
  = (Normal true,
     stored (<[key := {| timestamp := t2; data := v2 |}]> d) t2 log (S (S n))).
Proof.
  intros Hk.
  rewrite (run_saveToCache_holds tid key v1 d (stored d t1 log n)) by done.
  erewrite run_saveToCache_holds by reflexivity. simpl.
  rewrite (set_property_assignable key _ d) by done.
  rewrite set_property_assignable by (right; rewrite lookup_insert_eq; eauto).
  unfold stored. by rewrite insert_insert_eq.
Qed.

(** X6. [saveToCache] never throws, and it is all or nothing: when it
    returns [false] the world is exactly as before; when it returns [true]
    the file holds a document, which is the previous one (the empty one
    when the file was absent) with the entry of the key replaced.  One
    case apart: for the key ["__proto__"], when the previous document has
    no entry of that name, it returns [true] and the file holds the
    previous document, nothing being stored. *)
Theorem saveToCache_all_or_nothing tid key v w :
  ∃ b w', run tid (saveToCache key v) w = (Normal b, w') ∧
          (b = false → w' = w) ∧
          (b = true →
             ∃ d d', disk w' = Holds (Encoded d') ∧
                     d = match disk w with Holds (Encoded d) => d | _ => ∅ end ∧
                     (assignable key d →
                        d' = <[key := {| timestamp := clock w; data := v |}]> d) ∧
                     (key = "__proto__" → d !! key = None → d' = d)).
Proof.
  destruct (run_saveToCache_returns tid key v w) as (b & w' & Hrun).
  exists b, w'. split; [done|]. destruct b.
  - split; [done|]. intros _.
    apply run_saveToCache_true in Hrun as [_ Hdisk].
    eexists _, _. split_and!; [exact Hdisk | done | |].
    + intros Hk. by apply set_property_assignable.
    + intros -> Hnone. by apply set_property_proto.
  - split; [|done]. intros _.
    destruct (read_only w) eqn:Hro.
    { rewrite run_saveToCache_read_only in Hrun by done. congruence. }
    destruct (disk w) as [| |[raw|d]] eqn:Hd.
    + rewrite run_saveToCache_absent in Hrun by done. congruence.
    + rewrite run_saveToCache_unreadable in Hrun by done. congruence.
    + rewrite (run_saveToCache_malformed _ _ _ raw) in Hrun by done. congruence.
    + rewrite (run_saveToCache_holds _ _ _ d) in Hrun by done. congruence.
Qed.

Lemma run_clearExpiredCache_holds tid d w :
  disk w = Holds (Encoded d) →
  run tid clearExpiredCache w =
  if bool_decide (0 < size (dropped (clock w) d))%nat
  then if read_only w then (Normal 0%nat, w)
       else (Normal (size (dropped (clock w) d)),
             {| disk := Holds (Encoded (kept (clock w) d)); read_only := false;
                clock := clock w; invoked := invoked w; writes := S (writes w) |})
  else (Normal 0%nat, w).
Proof.
  intros Hd. unfold clearExpiredCache.
  rewrite run_try_catch, run_bind.
  assert (run tid fs_readFile w = (Normal (Encoded d), w)) as ->.
  { cbn. unfold do_readFile. by rewrite Hd. }
  cbv beta iota. rewrite run_bind.
  change (run tid (JSON_parse (Encoded d)) w) with (Normal d, w).
  cbv beta iota. rewrite run_bind.
  rewrite run_for_in.
  2:{ apply NoDup_fst_map_to_list. }
  2:{ intros k [[k' e] [-> Hk]]%list_elem_of_fmap.
      apply elem_of_map_to_list in Hk. by exists e. }
  assert (filter (λ kv : string * entry,
            kv.1 ∈ (map_to_list d).*1 → fresh (clock w) kv.2) d = kept (clock w) d) as ->.
  { apply map_filter_ext. intros k e Hk. simpl.
    split; [|done]. intros Hf. apply Hf. by eapply fst_map_to_list_lookup. }
  assert (filter (λ kv : string * entry,
            kv.1 ∈ (map_to_list d).*1 ∧ ¬ fresh (clock w) kv.2) d = dropped (clock w) d) as ->.
  { apply map_filter_ext. intros k e Hk. simpl.
    split; [by intros [_ ?]|]. intros Hf. split; [|done].
    by eapply fst_map_to_list_lookup. }
  cbv beta iota. rewrite Nat.add_0_l.
  case_bool_decide as Hpos.
  - rewrite run_bind. cbn. unfold do_writeFile.
    destruct (read_only w) eqn:Hro; [done|]. simpl.
    destruct w as [dk ro ck lg wr]. simpl in *. by subst.
  - apply Nat.nlt_ge, Nat.le_0_r in Hpos. by rewrite Hpos.
Qed.

Lemma kept_lookup_later t1 t2 d key :
  t1 ≤ t2 →
  match kept t1 d !! key with
  | Some e => if bool_decide (fresh t2 e) then data e else JNull
  | None => JNull
  end
  = match d !! key with
    | Some e => if bool_decide (fresh t2 e) then data e else JNull
    | None => JNull
    end.
Proof.
  intros Ht. unfold kept. rewrite map_lookup_filter.
  destruct (d !! key) as [e|]; simpl; [|done].
  case_guard as Hf; simpl; [done|].
  rewrite bool_decide_eq_false_2; [done|]. unfold fresh in *. lia.
Qed.

(** X7. A sweep is invisible to lookups: at the time of the sweep or
    later, [getFromCache] returns for every key what it would have returned
    had the sweep not run. *)
Theorem clearExpiredCache_invisible tid tid' key d now t log n :
  now ≤ t →
  (run tid' (getFromCache key)
       (set_clock t (run tid clearExpiredCache (stored d now log n)).2)).1
  = (run tid' (getFromCache key) (stored d t log n)).1.
Proof.
  intros Ht. rewrite run_clearExpiredCache_stored.
  rewrite (run_getFromCache_holds tid' key d (stored d t log n)) by done.
  case_bool_decide.
  - erewrite run_getFromCache_holds by reflexivity. simpl.
    by rewrite kept_lookup_later.
  - by erewrite run_getFromCache_holds by reflexivity.
Qed.

Lemma kept_kept t1 t2 d : t1 ≤ t2 → kept t2 (kept t1 d) = kept t2 d.
Proof.
  intros Ht. unfold kept. rewrite map_filter_filter.
  apply map_filter_ext. intros k e _. simpl. unfold fresh. split; [by intros [? _]|].
  intros Hf. split; [done|]. lia.
Qed.

Lemma dropped_split t1 t2 d :
  t1 ≤ t2 →
  (size (dropped t1 d) + size (dropped t2 (kept t1 d)) = size (dropped t2 d))%nat.
Proof.
  intros Ht. rewrite <- map_size_disj_union.
  - f_equal. apply map_eq. intros k. rewrite lookup_union.
    unfold dropped, kept. rewrite !map_lookup_filter.
    destruct (d !! k) as [e|]; simpl; [|done].
    repeat (case_guard; simpl); try done; unfold fresh in *; simpl in *; lia.
  - apply map_disjoint_spec. intros k e1 e2.
    unfold dropped, kept. rewrite !map_lookup_filter_Some. simpl.
    intros [He1 Hn1] [[He2 Hf2] _]. rewrite He1 in He2. injection He2 as <-. done.
Qed.

(** X8. Two sweeps, the second no earlier than the first: the document
    ends as one sweep at the second time would have left it, and the two
    counts add up to the count of that one sweep.  In particular a second
    sweep at the same time removes nothing and does not write. *)
Theorem clearExpiredCache_twice tid d t1 t2 log n :
  t1 ≤ t2 →
  ∃ n1 n2 w1 w2,
    run tid clearExpiredCache (stored d t1 log n) = (Normal n1, w1) ∧
    run tid clearExpiredCache (set_clock t2 w1) = (Normal n2, w2) ∧
    disk w2 = Holds (Encoded (kept t2 d)) ∧
    (n1 + n2 = size (dropped t2 d))%nat ∧
    (t2 = t1 → n2 = 0%nat ∧ w2 = w1).
Proof.
  intros Ht.
  pose proof (dropped_split t1 t2 d Ht) as Hsplit.
  pose proof (kept_kept t1 t2 d Ht) as Hkk.
  rewrite run_clearExpiredCache_stored.
  case_bool_decide as H1.
  - pose proof (run_clearExpiredCache_holds tid (kept t1 d)
                  (set_clock t2 (stored (kept t1 d) t1 log (S n))) eq_refl) as H2.
    simpl in H2. rewrite Hkk in H2.
    case_bool_decide as H3.
    + eexists _, _, _, _. split_and!; [reflexivity | exact H2 | done | done |].
      intros ->. lia.
    + eexists _, _, _, _. split_and!; [reflexivity | exact H2 | | lia |].
      * simpl. f_equal. f_equal. rewrite <- Hkk.
        symmetry. apply kept_nothing_dropped. lia.
      * by intros ->.
  - assert (size (dropped t1 d) = 0)%nat as H0 by lia.
    pose proof (run_clearExpiredCache_holds tid d
                  (set_clock t2 (stored d t1 log n)) eq_refl) as H2.
    simpl in H2.
    case_bool_decide as H3.
    + eexists _, _, _, _. split_and!; [reflexivity | exact H2 | done | lia |].
      intros ->. lia.
    + eexists _, _, _, _. split_and!; [reflexivity | exact H2 | | lia |].
      * simpl. f_equal. f_equal. symmetry. apply kept_nothing_dropped. lia.
      * by intros ->.
Qed.

(** X9. A sweep never throws, and it gives up without a trace, returning
    [0], when no document can be loaded from the file or when the file
    cannot be written (even though entries may have expired). *)
Theorem clearExpiredCache_gives_up tid w :
  (∃ n w', run tid clearExpiredCache w = (Normal n, w')) ∧
  (unusable (disk w) ∨ read_only w = true →
   run tid clearExpiredCache w = (Normal 0%nat, w)).
Proof.
  split; [apply run_try_catch_total|].
  destruct (disk w) as [| |[raw|d]] eqn:Hd.
  1-3: intros _; unfold clearExpiredCache; rewrite run_try_catch, run_bind;
       cbn; unfold do_readFile; by rewrite Hd.
  intros [Hu|Hro]; [done|].
  rewrite (run_clearExpiredCache_holds tid d) by done.
  rewrite Hro. by case_bool_decide.
Qed.

(** X10. With [forceRefresh] the cache is not consulted: whatever the
    document holds for the key, [fetchFn] is invoked.  When it resolves
    with [v] the call returns [v] and the entry of the key is replaced by
    [v], stamped with the time of the call; when it rejects with [e] the
    call fails with [e] and the document is as it was.  (The key is not
    ["__proto__"], or the document has an entry of that name.) *)
Theorem getCachedOrFetch_forceRefresh tid key f d now log n :
  assignable key d →
  run tid (getCachedOrFetch key f true) (stored d now log n)
  = match f (length log) with
    | Fulfilled v =>
        (Normal v,
         stored (<[key := {| timestamp := now; data := v |}]> d) now (log ++ [tid]) (S n))
    | Rejected e => (Abrupt e, stored d now (log ++ [tid]) n)
    end.
Proof.
  intros Hk. rewrite run_getCachedOrFetch_fetch by auto.
  simpl invoked. destruct (f (length log)) as [v|e]; [|done].
  erewrite run_saveToCache_holds by reflexivity. simpl.
  by rewrite set_property_assignable.
Qed.

(** X11. Memoisation: after a call that missed and fetched a truthy [v] at
    a location in working order, a second call for the same key within
    [CACHE_DURATION] returns [v] from the cache: it does not invoke its
    [fetchFn] and changes nothing.  (The key is not ["__proto__"], or the
    document has an entry of that name.) *)
Theorem getCachedOrFetch_memoizes tid tid' key f f' v d w t :
  serves w d →
  assignable key d →
  misses key w →
  f (length (invoked w)) = Fulfilled v →
  truthy v = true →
  t - clock w < CACHE_DURATION →
  ∃ w', run tid (getCachedOrFetch key f false) w = (Normal v, w') ∧
        run tid' (getCachedOrFetch key f' false) (set_clock t w')
        = (Normal v, set_clock t w').
Proof.
  intros Hw Hk Hmiss Hf Hv Ht.
  rewrite run_getCachedOrFetch_fetch.
  2:{ right. by apply run_getFromCache_misses. }
  rewrite Hf.
  destruct (run_saveToCache_serves tid key v d (logged tid w)) as [m ->].
  { destruct Hw as [Hro Hd]. by split. }
  eexists. split; [done|].
  apply run_getCachedOrFetch_hit; [|done].
  erewrite run_getFromCache_holds by reflexivity.
  rewrite set_property_assignable by done.
  rewrite lookup_insert_eq. simpl.
  rewrite bool_decide_eq_true_2; [done|]. unfold fresh. simpl. lia.
Qed.

(** X12. An entry whose payload is falsy is never served, fresh or not:
    the call invokes [fetchFn] and completes as that invocation settles. *)
Theorem getCachedOrFetch_falsy_never_served tid key f d e w :
  disk w = Holds (Encoded d) →
  d !! key = Some e →
  truthy (data e) = false →
  ∃ w', run tid (getCachedOrFetch key f false) w
        = (match f (length (invoked w)) with
           | Fulfilled v => Normal v
           | Rejected err => Abrupt err
           end, w')
        ∧ invoked w' = invoked w ++ [tid].
Proof.
  intros Hd He Hv.
  rewrite run_getCachedOrFetch_fetch.
  2:{ right. eexists. split; [by apply (run_getFromCache_holds _ _ d)|].
      rewrite He. by destruct (bool_decide _). }
  destruct (f (length (invoked w))) as [v|err]; [|by eexists].
  eexists. split; [done|]. by rewrite invoked_saveToCache.
Qed.

(** X13. [getCachedOrFetch] fails only when the invocation of [fetchFn] it
    made rejects, and then with the same error and nothing written; a
    failure of the cache itself (file unreadable, unparsable, read-only) is
    never reported to the caller. *)
Theorem getCachedOrFetch_fails_only_on_reject tid key f force e w w' :
  run tid (getCachedOrFetch key f force) w = (Abrupt e, w') →
  f (length (invoked w)) = Rejected e ∧ w' = logged tid w.
Proof.
  intros Hrun.
  destruct (run_getFromCache_reads tid key w) as [c Hget].
  assert (force = true ∨ force = false ∧ truthy c = true ∨
          ∃ c', run tid (getFromCache key) w = (Normal c', w) ∧ truthy c' = false)
    as [->|[[-> Hc]|Hmiss]].
  { destruct force; [by left|]. destruct (truthy c) eqn:Hc; [by right; left|].
    right. right. by exists c. }
  - rewrite run_getCachedOrFetch_fetch in Hrun by auto.
    destruct (f (length (invoked w))) as [v|err]; [done|]. by injection Hrun as -> ->.
  - by rewrite (run_getCachedOrFetch_hit _ _ _ c) in Hrun.
  - rewrite run_getCachedOrFetch_fetch in Hrun by auto.
    destruct (f (length (invoked w))) as [v|err]; [done|]. by injection Hrun as -> ->.
Qed.

End CacheMore.

(** ** More on the favorites store, one call at a time *)

Section FavoritesMore.
Import Favorites.
Implicit Types (d : list recipe) (r : recipe) (w : world doc).

Lemma existsb_id id d :
  existsb (λ fav, String.eqb (idMeal fav) id) d = true ↔ id ∈ ids d.
Proof. apply (existsb_ids {| idMeal := id; fields := [] |}). Qed.

Lemma run_isInFavorites_stored tid id d now log n :
  run tid (isInFavorites id) (stored d now log n)
  = (Normal (existsb (λ fav, String.eqb (idMeal fav) id) d), stored d now log n).
Proof. reflexivity. Qed.

Lemma run_getFavoriteById_stored tid id d now log n :
  run tid (getFavoriteById id) (stored d now log n)
  = (Normal (List.find (λ fav, String.eqb (idMeal fav) id) d), stored d now log n).
Proof. reflexivity. Qed.

Lemma existsb_id_app id d r :
  existsb (λ fav, String.eqb (idMeal fav) id) (d ++ [r])
  = existsb (λ fav, String.eqb (idMeal fav) id) d || String.eqb (idMeal r) id.
Proof. rewrite existsb_app. simpl. by rewrite orb_false_r. Qed.

Lemma filter_other_id_new id d :
  id ∉ ids d → List.filter (λ fav, negb (String.eqb (idMeal fav) id)) d = d.
Proof.
  unfold ids. induction d as [|x d IH]; simpl; [done|].
  rewrite not_elem_of_cons. intros [Hx Hd].
  destruct (String.eqb_spec (idMeal x) id) as [Heq|Hne]; simpl; [congruence|].
  by rewrite IH.
Qed.

(** X14. [isInFavorites] is a pure query that agrees with the document: it
    returns [true] exactly when a record with the identifier is there, and
    changes nothing.  After [addFavorite r], whatever that returned, the
    identifier of [r] is in; after [removeFavorite id], whatever that
    returned, [id] is out. *)
Theorem isInFavorites_spec tid id r d now log n :
  (∃ b, run tid (isInFavorites id) (stored d now log n) = (Normal b, stored d now log n)
        ∧ (b = true ↔ id ∈ ids d)) ∧
  (run tid (isInFavorites (idMeal r))
       (run tid (addFavorite r) (stored d now log n)).2).1 = Normal true ∧
  (run tid (isInFavorites id)
       (run tid (removeFavorite id) (stored d now log n)).2).1 = Normal false.
Proof.
  split_and!.
  - eexists. split; [apply run_isInFavorites_stored | apply existsb_id].
  - rewrite run_addFavorite_stored.
    destruct (existsb _ d) eqn:Hex; cbn [snd]; rewrite run_isInFavorites_stored; cbn [fst].
    + by rewrite Hex.
    + rewrite existsb_id_app, String.eqb_refl. by rewrite orb_true_r.
  - rewrite run_removeFavorite_stored. cbv zeta.
    destruct (_ =? _)%nat eqn:Hlen; cbn [snd]; rewrite run_isInFavorites_stored; cbn [fst].
    + apply filter_other_ids in Hlen. f_equal.
      apply not_true_is_false. by rewrite existsb_id.
    + f_equal. apply not_true_is_false. rewrite existsb_id. apply ids_filter_other.
Qed.

(** X15. [getFavoriteById] is a pure query: it returns the first record of
    the document that carries the identifier, and [null] exactly when no
    record carries it. *)
Theorem getFavoriteById_spec tid id d now log n :
  ∃ o, run tid (getFavoriteById id) (stored d now log n) = (Normal o, stored d now log n)
       ∧ (∀ r, o = Some r →
            idMeal r = id ∧
            ∃ before after, d = before ++ r :: after ∧ id ∉ ids before)
       ∧ (o = None ↔ id ∉ ids d).
Proof.
  eexists. split; [apply run_getFavoriteById_stored|]. split.
  - intros r Hfind. unfold ids.
    induction d as [|x d IH]; simpl in Hfind; [done|].
    destruct (String.eqb_spec (idMeal x) id) as [Heq|Hne].
    + injection Hfind as <-. split; [done|]. exists [], d. split; [done|].
      apply not_elem_of_nil.
    + destruct (IH Hfind) as (Hid & before & after & -> & Hb).
      split; [done|]. exists (x :: before), after. split; [done|].
      simpl. rewrite not_elem_of_cons. done.
  - rewrite <- existsb_id, existsb_exists. split.
    + intros Hnone (x & Hx & Heq).
      pose proof (find_none _ _ Hnone x Hx) as Hfalse. simpl in Hfalse. congruence.
    + intros Hno. destruct (find _ d) as [x|] eqn:Hf; [|done]. exfalso.
      apply find_some in Hf as [Hx Heq]. eauto.
Qed.

(** X16. Adding a record whose identifier is new and then removing that
    identifier gives back the document as it was; both calls return
    [true]. *)
Theorem addFavorite_removeFavorite tid r d now log n :
  idMeal r ∉ ids d →
  run tid (addFavorite r) (stored d now log n)
    = (Normal true, stored (d ++ [r]) now log (S n)) ∧
  run tid (removeFavorite (idMeal r)) (stored (d ++ [r]) now log (S n))
    = (Normal true, stored d now log (S (S n))).
Proof.
  intros Hnew. split.
  - rewrite run_addFavorite_stored.
    assert (existsb (λ fav, String.eqb (idMeal fav) (idMeal r)) d = false) as ->; [|done].
    apply not_true_is_false. by rewrite existsb_ids.
  - rewrite run_removeFavorite_stored. cbv zeta.
    rewrite List.filter_app. simpl. rewrite String.eqb_refl. simpl.
    rewrite app_nil_r, filter_other_id_new by done.
    rewrite length_app. simpl.
    rewrite (proj2 (Nat.eqb_neq _ _)); [done|]. lia.
Qed.

(** X17. Both mutations are idempotent: right after an [addFavorite r] a
    second [addFavorite r] returns [false], and right after a
    [removeFavorite id] a second [removeFavorite id] returns [false];
    neither second call writes or changes anything. *)
Theorem favorites_idempotent tid r id d now log n :
  run tid (addFavorite r) (run tid (addFavorite r) (stored d now log n)).2
  = (Normal false, (run tid (addFavorite r) (stored d now log n)).2)
  ∧ run tid (removeFavorite id) (run tid (removeFavorite id) (stored d now log n)).2
    = (Normal false, (run tid (removeFavorite id) (stored d now log n)).2).
Proof.
  split.
  - rewrite (run_addFavorite_stored tid r d).
    destruct (existsb _ d) eqn:Hex; cbn [snd]; rewrite run_addFavorite_stored.
    + by rewrite Hex.
    + by rewrite existsb_id_app, String.eqb_refl, orb_true_r.
  - rewrite (run_removeFavorite_stored tid id d). cbv zeta.
    destruct (_ =? _)%nat eqn:Hlen; cbn [snd]; rewrite run_removeFavorite_stored; cbv zeta.
    + by rewrite Hlen.
    + rewrite (proj2 (filter_other_ids id _)); [done|]. apply ids_filter_other.
Qed.

Lemma filter_other_id_length id d :
  NoDup (ids d) → id ∈ ids d →
  S (length (List.filter (λ fav, negb (String.eqb (idMeal fav) id)) d)) = length d.
Proof.
  unfold ids. induction d as [|x d IH]; simpl.
  - intros _ Hin. by apply elem_of_nil in Hin.
  - rewrite NoDup_cons, elem_of_cons. intros [Hx Hnd] Hin.
    destruct (String.eqb_spec (idMeal x) id) as [Heq|Hne]; simpl.
    + subst id. by rewrite filter_other_id_new.
    + destruct Hin as [Hin|Hin]; [congruence|]. by rewrite IH.
Qed.

(** X18. On a document with unique identifiers, [removeFavorite id] of an
    identifier that is there removes exactly one record: the document gets
    shorter by one, keeps every record with another identifier, and keeps
    unique identifiers. *)
Theorem removeFavorite_removes_one tid id d now log n :
  NoDup (ids d) →
  id ∈ ids d →
  ∃ d', run tid (removeFavorite id) (stored d now log n)
        = (Normal true, stored d' now log (S n))
        ∧ S (length d') = length d
        ∧ NoDup (ids d')
        ∧ (∀ r, r ∈ d → idMeal r ≠ id → r ∈ d').
Proof.
  intros Hnd Hin. rewrite run_removeFavorite_stored. cbv zeta.
  pose proof (filter_other_id_length id d Hnd Hin) as Hlen.
  rewrite (proj2 (Nat.eqb_neq _ _)) by lia.
  eexists. split_and!; [done | done | |].
  - unfold ids in *. clear Hin Hlen.
    induction d as [|x d IH]; simpl; [done|].
    apply NoDup_cons in Hnd as [Hx Hnd].
    destruct (negb _); simpl; [|by apply IH].
    apply NoDup_cons. split; [|by apply IH].
    intros Hx'. apply Hx. apply list_elem_of_fmap in Hx' as (y & -> & Hy).
    apply list_elem_of_fmap. exists y. split; [done|].
    apply list_elem_of_In, List.filter_In in Hy as [Hy _]. by apply list_elem_of_In.
  - intros r Hr Hne. apply list_elem_of_In, List.filter_In.
    split; [by apply list_elem_of_In|].
    apply negb_true_iff, String.eqb_neq. done.
Qed.

(** X19. A favorites file that is absent, or whose text does not parse,
    counts as the empty document: at a location that can be written,
    [addFavorite r] returns [true] and the file then holds exactly [r] (the
    unparsable text is gone). *)
Theorem addFavorite_replaces_corrupt tid r w :
  read_only w = false →
  (disk w = Absent ∨ ∃ raw, disk w = Holds (Malformed raw)) →
  ∃ w', run tid (addFavorite r) w = (Normal true, w') ∧
        disk w' = Holds (Encoded [r]).
Proof.
  destruct w as [dk ro ck lg wr]. simpl. intros -> [->|[raw ->]];
    eexists; split; reflexivity.
Qed.

(** X20. [getFavorites] never throws.  When the file exists it changes
    nothing, and returns the document the file holds, or the empty list when
    the file cannot be read or parsed; when the file is absent it returns the
    empty list, having created the file with the empty document if the
    location can be written. *)
Theorem getFavorites_spec tid w :
  ∃ d w', run tid getFavorites w = (Normal d, w') ∧
          (disk w ≠ Absent → w' = w) ∧
          (∀ d0, disk w = Holds (Encoded d0) → d = d0) ∧
          (unusable (disk w) → d = []) ∧
          (disk w = Absent → read_only w = false → disk w' = Holds (Encoded [])) ∧
          (disk w = Absent → read_only w = true → w' = w).
Proof.
  destruct w as [dk ro ck lg wr]. simpl.
  destruct dk as [| |[raw|d0]]; [destruct ro|..];
    eexists _, _; (split; [reflexivity|]); simpl;
    split_and!; try done; try (by intros d1 [= <-]).
Qed.

(** [addFavorite], [isInFavorites] and [getFavoriteById] never throw,
    whatever the state of the backing file. *)
Lemma favorites_never_throw tid r id w :
  (∃ b w', run tid (addFavorite r) w = (Normal b, w')) ∧
  (∃ b w', run tid (isInFavorites id) w = (Normal b, w')) ∧
  (∃ o w', run tid (getFavoriteById id) w = (Normal o, w')).
Proof. split_and!; apply run_try_catch_total. Qed.

End FavoritesMore.

(** ** Calls of the favorites store in flight *)

Section KeepsLaws.
Context {D : Type} (P : D → Prop).

Ltac by_cases p :=
  induction p as [a|e|k IH|k IH|k IH|t k IH|k IH|g k IH|pr k IH|k IH|t k IH];
  simpl; try done; eauto.

Lemma keeps_bind {A B} (Q : A → Prop) (R : B → Prop) (p : prog D A) (f : A → prog D B) :
  keeps P Q p → (∀ a, Q a → keeps P R (f a)) → keeps P R (p ≫= f).
Proof.
  unfold mbind, prog_bind. intros Hp Hf. by_cases p.
  all: destruct Hp as [Ht Hk]; (split; [done|]); intros r; by apply IH.
Qed.

Lemma keeps_try_catch {A} (Q : A → Prop) (p : prog D A) h :
  keeps P Q p → (∀ e, keeps P Q (h e)) → keeps P Q (try_catch p h).
Proof.
  intros Hp Hh. by_cases p.
  all: destruct Hp as [Ht Hk]; (split; [done|]); intros r; by apply IH.
Qed.

Lemma keeps_await {A} (Q : A → Prop) (p : prog D A) :
  keeps P Q p → keeps P Q (await p).
Proof.
  unfold await. intros Hp. by_cases p.
  all: destruct Hp as [Ht Hk]; (split; [done|]); intros r; by apply IH.
Qed.

Lemma keeps_weaken {A} (Q Q' : A → Prop) (p : prog D A) :
  (∀ a, Q a → Q' a) → keeps P Q p → keeps P Q' p.
Proof.
  intros HQ Hp. by_cases p.
  all: destruct Hp as [Ht Hk]; (split; [done|]); intros r; by apply IH.
Qed.

Lemma keeps_run_sync {A} (Q : A → Prop) tid (p : prog D A) w :
  keeps P Q p → holds_only P w →
  keeps P Q (run_sync tid p w).1 ∧ holds_only P (run_sync tid p w).2.
Proof.
  revert w.
  induction p as [a|e|k IH|k IH|k IH|t k IH|k IH|g k IH|pr k IH|k IH|t k IH];
    intros w Hp Hw; simpl in *; try done.
  - by apply IH.
  - by apply IH.
Qed.

Lemma keeps_turn {A} (Q : A → Prop) tid (p p' : prog D A) w w' :
  keeps P Q p → holds_only P w →
  turn tid p w p' w' →
  keeps P Q p' ∧ holds_only P w'.
Proof.
  intros Hp Hw Hturn.
  assert (∀ q w0, keeps P Q q → holds_only P w0 → run_sync tid q w0 = (p', w') →
                  keeps P Q p' ∧ holds_only P w') as Hgo.
  { intros q w0 Hq Hw0 Hrun.
    destruct (keeps_run_sync Q tid q w0 Hq Hw0) as [Hk Hh]. by rewrite Hrun in Hk, Hh. }
  assert (∀ t, (∀ d, t = Encoded d → P d) → holds_only P (written t w)) as Hwritten.
  { intros t Ht d. unfold written. simpl.
    destruct (disk w); try done; intros [= ->]; by apply Ht. }
  destruct Hturn as [Hres|(t & k & t' & -> & Ht' & Hrun)].
  2:{ destruct Hp as [Ht Hk].
      apply (Hgo (k (Normal ())) (written t' w)); [apply Hk | | exact Hrun].
      apply Hwritten. destruct Ht' as [->|[raw ->]]; [done|]. by intros d. }
  destruct p as [a|e|k|k|k|t k|k|g k|pr k|k|t k]; simpl in Hp, Hres; try done.
  - injection Hres as Hres. eapply Hgo; [ | | exact Hres]; [apply Hp | done].
  - injection Hres as Hres. eapply Hgo; [ | | exact Hres]; [apply Hp | done].
  - injection Hres as Hres. eapply Hgo; [ | | exact Hres]; [|done].
    apply Hp. intros d Hr. apply Hw. unfold do_readFile in Hr.
    destruct (disk w) as [| |t]; try done. by injection Hr as ->.
  - destruct Hp as [Ht Hk]. destruct (read_only w).
    + injection Hres as Hres. eapply Hgo; [ | | exact Hres]; [apply Hk | done].
    + injection Hres as <- <-. split; [by split|].
      intros d. unfold emptied. simpl. by destruct (disk w).
  - injection Hres as Hres. eapply Hgo; [ | | exact Hres]; [apply Hp | done].
  - injection Hres as Hres. apply (Hgo (Invoke g k) w); [exact Hp | done | exact Hres].
  - injection Hres as Hres. eapply Hgo; [ | | exact Hres]; [apply Hp | done].
  - injection Hres as Hres. eapply Hgo; [ | | exact Hres]; [apply Hp | done].
  - destruct Hp as [Ht Hk]. destruct (occupied w); [done|]. injection Hres as Hres.
    eapply Hgo; [ | | exact Hres]; [apply Hk | by apply Hwritten].
Qed.

Lemma keeps_sched {A} (Q : A → Prop) (c c' : config D A) :
  sched c c' →
  holds_only P (fst c) ∧ Forall (keeps P Q) (snd c) →
  holds_only P (fst c') ∧ Forall (keeps P Q) (snd c').
Proof.
  intros Hstep [Hw Hpool].
  destruct (sched_turn _ _ Hstep) as [(tid & p & p' & Hp & -> & Hturn)|[-> [d ->]]].
  2:{ done. }
  destruct (keeps_turn Q tid p p' _ _ (Forall_lookup_1 _ _ _ _ Hpool Hp) Hw Hturn)
    as [Hk Hh].
  split; [done|]. by apply Forall_insert.
Qed.

Lemma keeps_rtc_sched {A} (Q : A → Prop) (c c' : config D A) :
  rtc sched c c' →
  holds_only P (fst c) ∧ Forall (keeps P Q) (snd c) →
  holds_only P (fst c') ∧ Forall (keeps P Q) (snd c').
Proof.
  induction 1 as [c | c1 c2 c3 Hstep _ IH]; [done|].
  intros Hc. apply IH. by eapply keeps_sched.
Qed.

Lemma keeps_spawn {A} (Q : A → Prop) tid (calls : list (prog D A)) w :
  Forall (keeps P Q) calls → holds_only P w →
  holds_only P (fst (spawn tid calls w)) ∧ Forall (keeps P Q) (snd (spawn tid calls w)).
Proof.
  revert tid w. induction calls as [|p calls IH]; intros tid w Hcalls Hw; simpl; [done|].
  apply Forall_cons in Hcalls as [Hp Hcalls].
  destruct (keeps_run_sync Q tid p w Hp Hw) as [Hk Hh].
  destruct (run_sync tid p w) as [p' w1]. simpl in *.
  destruct (IH (S tid) w1 Hcalls Hh) as [Hh' Hpool].
  destruct (spawn (S tid) calls w1) as [w2 pool]. simpl in *.
  split; [done|]. by apply Forall_cons.
Qed.

End KeepsLaws.

(** ** Two calls writing the file at once *)

Section TwoWriters.
Context {D A : Type}.
Implicit Types (w : world D) (p : prog D A) (t : text D).

Lemma writing_out_turn t a tid p p' w w' :
  writing_out t a p →
  read_only w = false →
  (∃ x, disk w = Holds x) →
  turn tid p w p' w' →
  writing_out t a p' ∧ read_only w' = false ∧ ¬ unopened p' ∧
  (disk w' = Holds t ∨ ∃ raw, disk w' = Holds (Malformed raw)).
Proof.
  intros Hp Hro [x Hx] Hturn.
  assert (disk (written t w) = Holds t) as Hwritten.
  { unfold written. simpl. by rewrite Hx. }
  destruct Hp as [(k & -> & Hk)|[(k & -> & Hk)| ->]].
  - destruct Hturn as [Hres|(t0 & k0 & t' & Heq & _)]; [|done].
    simpl in Hres. rewrite Hro in Hres. injection Hres as <- <-. split_and!.
    + right. left. by exists k.
    + done.
    + by intros (t0 & k0 & Heq).
    + right. exists "". unfold emptied. simpl. by rewrite Hx.
  - destruct Hturn as [Hres|(t0 & k0 & t' & Heq & Ht' & Hrun)].
    + simpl in Hres. destruct (occupied w); [done|].
      rewrite Hk in Hres. injection Hres as <- <-. split_and!.
      * by right; right.
      * done.
      * by intros (t0 & k0 & Heq).
      * by left.
    + injection Heq as <- <-. rewrite Hk in Hrun. injection Hrun as <- <-. split_and!.
      * by right; right.
      * done.
      * by intros (t0 & k0 & Heq).
      * unfold written. simpl. rewrite Hx.
        destruct Ht' as [->|[raw ->]]; [by left | right; by exists raw].
  - by destruct Hturn as [Hres|(t0 & k0 & t' & Heq & _)].
Qed.

Lemma sched_racing t t0 t1 (a0 a1 : A) (c c' : config D A) :
  sched c c' → racing t t0 t1 a0 a1 c → racing t t0 t1 a0 a1 c'.
Proof.
  intros Hstep (Hro & p0 & p1 & Hpool & H0 & H1 & Hdisk).
  destruct c as [w pool], c' as [w' pool']. simpl in *. subst pool.
  assert (∃ x, disk w = Holds x) as Hx.
  { destruct Hdisk as [(_ & _ & Hd)|[_ [Hd|[Hd|[raw Hd]]]]]; eauto. }
  pose proof (sched_turn _ _ Hstep) as Ht. simpl in Ht.
  destruct Ht as [(tid & p & p' & Hp & -> & Hturn)|[-> [d ->]]].
  2:{ split; [done|]. by exists p0, p1. }
  destruct tid as [|[|tid]]; simpl in Hp; [| |done]; injection Hp as <-.
  - destruct (writing_out_turn t0 a0 0 p0 p' w w' H0 Hro Hx Hturn)
      as (H0' & Hro' & Hopen & Hd).
    split; [done|]. exists p', p1. split_and!; [done..|]. right.
    split; [by intros [? _]|].
    destruct Hd as [Hd|Hd]; [by left | by right; right].
  - destruct (writing_out_turn t1 a1 1 p1 p' w w' H1 Hro Hx Hturn)
      as (H1' & Hro' & Hopen & Hd).
    split; [done|]. exists p0, p'. split_and!; [done..|]. right.
    split; [by intros [_ ?]|].
    destruct Hd as [Hd|Hd]; [by right; left | by right; right].
Qed.

(** However the two writes are interleaved: when both calls have
    returned, they have returned [a0] and [a1], and the file holds one of
    the two texts or text that does not parse. *)
Lemma racing_end t t0 t1 (a0 a1 : A) (c : config D A) w pool :
  racing t t0 t1 a0 a1 c →
  rtc sched c (w, pool) →
  Forall (λ p, finished p = true) pool →
  pool = [Ret a0; Ret a1] ∧ one_or_garbled t0 t1 (disk w).
Proof.
  intros Hc Hreach Hfin.
  assert (racing t t0 t1 a0 a1 (w, pool)) as (_ & p0 & p1 & Hpool & H0 & H1 & Hdisk).
  { revert Hc. induction Hreach as [c|c1 c2 c3 Hstep _ IH]; [done|].
    intros Hc. apply IH. by eapply sched_racing. }
  simpl in *. subst pool.
  apply Forall_cons in Hfin as [Hf0 Hfin]. apply Forall_cons in Hfin as [Hf1 _].
  assert (p0 = Ret a0) as ->.
  { destruct H0 as [(k & -> & _)|[(k & -> & _)| ->]]; done. }
  assert (p1 = Ret a1) as ->.
  { destruct H1 as [(k & -> & _)|[(k & -> & _)| ->]]; done. }
  split; [done|].
  destruct Hdisk as [((t' & k & Heq) & _)|[_ Hd]]; done.
Qed.

End TwoWriters.

Section FavoritesConcurrent.
Import Favorites.

Lemma keeps_initializeFavorites :
  keeps unique_ids (λ _ : unit, True) initializeFavorites.
Proof.
  unfold initializeFavorites. cbn. intros [[]|e]; cbn; [done|].
  intros [[]|e']; cbn; [|done]. split; [|by intros [[]|e'']].
  intros d [= <-]. apply NoDup_nil_2.
Qed.

Lemma keeps_getFavorites : keeps unique_ids unique_ids getFavorites.
Proof.
  unfold getFavorites. apply keeps_try_catch; [|intros _; apply NoDup_nil_2].
  eapply keeps_bind; [apply keeps_await, keeps_initializeFavorites|].
  intros _ _. cbn. intros [[raw|d]|e] Hr; cbn; [done| |done]. by apply Hr.
Qed.

Lemma unique_ids_snoc d r :
  unique_ids d →
  existsb (λ fav, String.eqb (idMeal fav) (idMeal r)) d = false →
  unique_ids (d ++ [r]).
Proof.
  unfold unique_ids, ids. intros Hnd Hex. rewrite fmap_app. simpl.
  apply NoDup_app. split_and!; [done | | apply NoDup_singleton].
  intros x Hx Hx'. apply list_elem_of_singleton in Hx'. subst.
  apply (existsb_ids r d) in Hx. congruence.
Qed.

Lemma unique_ids_filter (f : recipe → bool) d :
  unique_ids d → unique_ids (List.filter f d).
Proof.
  unfold unique_ids, ids. induction d as [|x d IH]; simpl; [done|].
  rewrite NoDup_cons. intros [Hx Hnd].
  destruct (f x); simpl; [|by apply IH].
  apply NoDup_cons. split; [|by apply IH].
  intros Hx'. apply Hx. apply list_elem_of_fmap in Hx' as (y & -> & Hy).
  apply list_elem_of_fmap. exists y. split; [done|].
  apply list_elem_of_In, List.filter_In in Hy as [Hy _]. by apply list_elem_of_In.
Qed.

Lemma keeps_favorites_call p :
  favorites_call p → keeps unique_ids (λ _, True) p.
Proof.
  intros [[r ->]|[[id ->]|[id ->]]].
  - unfold addFavorite. apply keeps_try_catch; [|done].
    eapply keeps_bind; [apply keeps_await, keeps_initializeFavorites|]. intros _ _.
    eapply keeps_bind; [apply keeps_await, keeps_getFavorites|]. intros favorites Hfav.
    destruct (existsb _ favorites) eqn:Hex; [done|].
    cbn. split; [|by intros [[]|e]].
    intros d [= <-]. by apply unique_ids_snoc.
  - unfold removeFavorite. apply keeps_try_catch; [|done].
    eapply keeps_bind; [apply keeps_await, keeps_initializeFavorites|]. intros _ _.
    eapply keeps_bind; [apply keeps_await, keeps_getFavorites|]. intros favorites Hfav.
    cbv zeta. destruct (_ =? _)%nat; [done|].
    cbn. split; [|by intros [[]|e]].
    intros d [= <-]. by apply unique_ids_filter.
  - unfold isInFavorites. apply keeps_try_catch; [|done].
    eapply keeps_bind; [apply keeps_await, keeps_getFavorites|]. by intros favorites Hfav.
Qed.

(** X21. Unique identifiers survive every interleaving.  Take any number
    of [addFavorite], [removeFavorite] and [isInFavorites] calls made at
    once on a file whose document, if it holds one, has unique
    identifiers: however the event loop interleaves them, the document of
    the file has unique identifiers at every moment. *)
Theorem favorites_unique_ids_interleaved calls w0 w pool :
  Forall favorites_call calls →
  holds_only unique_ids w0 →
  rtc sched (spawn 0 calls w0) (w, pool) →
  holds_only unique_ids w.
Proof.
  intros Hcalls Hw0 Hreach.
  assert (Forall (keeps unique_ids (λ _ : bool, True)) calls) as Hk.
  { eapply Forall_impl; [exact Hcalls|]. apply keeps_favorites_call. }
  pose proof (keeps_spawn unique_ids (λ _, True) 0 calls w0 Hk Hw0) as Hinit.
  by destruct (keeps_rtc_sched unique_ids (λ _, True) _ _ Hreach Hinit).
Qed.

(** X22. Lost update.  Two [addFavorite] calls made at once for two
    records whose identifiers are new can both read the document before
    either opens the file for writing.  From there, however the event loop
    interleaves the two writes, both calls return [true], and when both
    have returned the file holds the document with the first record
    added, or the document with the second record added, or text that does
    not parse: never both records.  And the calls can be run to their
    end. *)
Theorem addFavorite_lost_update r1 r2 d now log n :
  idMeal r1 ∉ ids d →
  idMeal r2 ∉ ids d →
  ∃ pool1,
    rtc sched (spawn 0 [addFavorite r1; addFavorite r2] (stored d now log n))
              (stored d now log n, pool1) ∧
    (∀ w pool,
       rtc sched (stored d now log n, pool1) (w, pool) →
       Forall (λ p, finished p = true) pool →
       pool = [Ret true; Ret true] ∧
       (disk w = Holds (Encoded (d ++ [r1])) ∨
        disk w = Holds (Encoded (d ++ [r2])) ∨
        ∃ raw, disk w = Holds (Malformed raw))) ∧
    (∃ w pool, rtc sched (stored d now log n, pool1) (w, pool)
               ∧ Forall (λ p, finished p = true) pool) ∧
    (idMeal r1 ≠ idMeal r2 →
       (idMeal r2 ∉ ids (d ++ [r1])) ∧ (idMeal r1 ∉ ids (d ++ [r2]))).
Proof.
  intros H1 H2.
  assert (existsb (λ fav, String.eqb (idMeal fav) (idMeal r1)) d = false) as Hex1.
  { apply not_true_is_false. by rewrite existsb_ids. }
  assert (existsb (λ fav, String.eqb (idMeal fav) (idMeal r2)) d = false) as Hex2.
  { apply not_true_is_false. by rewrite existsb_ids. }
  eexists. split_and!.
  - apply (play_sound [0; 0; 0; 0; 0; 0; 1; 1; 1; 1; 1; 1]%nat).
    cbn. rewrite Hex1. cbn. rewrite Hex2. cbn. reflexivity.
  - intros w pool Hreach Hfin.
    eapply (racing_end (Encoded d) (Encoded (d ++ [r1])) (Encoded (d ++ [r2]))
              true true); [|exact Hreach|exact Hfin].
    split; [reflexivity|]. eexists _, _. split; [reflexivity|]. split_and!.
    + left. eexists. split; reflexivity.
    + left. eexists. split; reflexivity.
    + left. split_and!; [by eexists _, _ | by eexists _, _ | reflexivity].
  - apply calls_can_finish.
  - intros Hne. unfold ids. rewrite !fmap_app, !elem_of_app. simpl.
    rewrite !list_elem_of_singleton. split; intros [?|?]; [by apply H2 | done | by apply H1 | done].
Qed.

End FavoritesConcurrent.

Section CacheConcurrent.
Import Cache.

(** X23. Lost update.  Two [saveToCache] calls made at once can both read
    the document before either opens the file for writing.  From there,
    however the event loop interleaves the two writes, both calls return
    [true], and when both have returned the file holds the document with
    the entry of the first call, or the document with the entry of the
    second call, or text that does not parse: never both entries.  And the
    calls can be run to their end.  (The keys are not ["__proto__"], or the
    document has an entry of that name.) *)
Theorem saveToCache_lost_update k1 k2 v1 v2 d now log n :
  assignable k1 d →
  assignable k2 d →
  ∃ pool1,
    rtc sched (spawn 0 [saveToCache k1 v1; saveToCache k2 v2] (stored d now log n))
              (stored d now log n, pool1) ∧
    (∀ w pool,
       rtc sched (stored d now log n, pool1) (w, pool) →
       Forall (λ p, finished p = true) pool →
       pool = [Ret true; Ret true] ∧
       (disk w = Holds (Encoded (<[k1 := {| timestamp := now; data := v1 |}]> d)) ∨
        disk w = Holds (Encoded (<[k2 := {| timestamp := now; data := v2 |}]> d)) ∨
        ∃ raw, disk w = Holds (Malformed raw))) ∧
    (∃ w pool, rtc sched (stored d now log n, pool1) (w, pool)
               ∧ Forall (λ p, finished p = true) pool) ∧
    (k1 ≠ k2 →
       (<[k1 := {| timestamp := now; data := v1 |}]> d) !! k2 = d !! k2 ∧
       (<[k2 := {| timestamp := now; data := v2 |}]> d) !! k1 = d !! k1).
Proof.
  intros Hk1 Hk2.
  eexists. split_and!.
  - apply (play_sound [0; 0; 0; 1; 1; 1]%nat). reflexivity.
  - intros w pool Hreach Hfin.
    rewrite <- (set_property_assignable k1 _ d Hk1).
    rewrite <- (set_property_assignable k2 _ d Hk2).
    eapply (racing_end (Encoded d) _ _ true true); [|exact Hreach|exact Hfin].
    split; [reflexivity|]. eexists _, _. split; [reflexivity|]. split_and!.
    + left. eexists. split; reflexivity.
    + left. eexists. split; reflexivity.
    + left. split_and!; [by eexists _, _ | by eexists _, _ | reflexivity].
  - apply calls_can_finish.
  - intros Hne. by rewrite !lookup_insert_ne.
Qed.

(** X24. Whatever the schedule of [N] calls of
    [getCachedOrFetch(key, fetchFn)] made at once, and whether they hit or
    miss: no call invokes [fetchFn] more than once, so there are at most [N]
    invocations; a call fails only with what its own invocation rejected
    with; and a call that invoked [fetchFn] and returned, returned what its
    own invocation resolved with. *)
Theorem getCachedOrFetch_pool_safety key f N w0 w pool :
  invoked w0 = [] →
  rtc sched (concurrent_calls key f N w0) (w, pool) →
  (length (invoked w) ≤ N)%nat ∧
  NoDup (invoked w) ∧
  (∀ tid e, pool !! tid = Some (Throw e) →
     ∃ n, invoked w !! n = Some tid ∧ f n = Rejected e) ∧
  (∀ tid v, pool !! tid = Some (Ret v) → tid ∈ invoked w →
     ∃ n, invoked w !! n = Some tid ∧ f n = Fulfilled v).
Proof.
  intros Hw0 Hreach.
  destruct (rtc_sched_pool_inv f _ _ Hreach (pool_inv_concurrent_calls key f N w0 Hw0))
    as [(Hnd & Hlt & Hcalls) Hlen].
  unfold concurrent_calls in Hlen. rewrite spawn_getCachedOrFetch in Hlen.
  simpl in *. rewrite length_replicate in Hlen.
  split_and!.
  - assert (length (invoked w) ≤ length (seq 0 N))%nat as Hle.
    { apply submseteq_length, NoDup_submseteq; [done|].
      intros i Hi. apply elem_of_seq. specialize (Hlt i Hi). lia. }
    by rewrite length_seq in Hle.
  - done.
  - intros tid e Hp. destruct (Hcalls tid _ Hp) as [[_ Hu]|Hn]; [done|done].
  - intros tid v Hp Hin. destruct (Hcalls tid _ Hp) as [[Hnew _]|Hn]; [done|done].
Qed.

End CacheConcurrent.

(** ** The queries of [api.js] *)

Section ApiFacts.
Import Api.
Implicit Types (nw : network) (s : net).

Lemma after_nothing s : after s [] 0 = s.
Proof. destruct s as [l z]. unfold after. simpl. f_equal; [apply app_nil_r | lia]. Qed.

(** X25. [searchMealsByName] and [getRandomMeal] send exactly one request
    and never throw: [searchMealsByName] returns the meals of the response,
    and the empty list when the network, the status or the body fails or
    [meals] is [null]; [getRandomMeal] returns the first meal of the
    response, [null] on any failure, and [undefined] when [meals] is the
    empty array. *)
Theorem single_request_spec query nw s :
  searchMealsByName query nw s
  = (inr (meals_of (nw (length (sent s)) (SearchByName query))),
     after s [SearchByName query] 0)
  ∧ getRandomMeal nw s
    = (inr (default Null (reply (nw (length (sent s)) Random))), after s [Random] 0).
Proof.
  unfold searchMealsByName, getRandomMeal, attempt, bind, fetch, json, after, meals_of,
    reply. simpl. rewrite Z.add_0_r.
  split.
  - destruct (nw (length (sent s)) (SearchByName query)) as [|[[] st [|[l|]]]]; reflexivity.
  - destruct (nw (length (sent s)) Random) as [|[[] st [|[l|]]]]; reflexivity.
Qed.

Lemma getMealById_step id attempts nw s :
  getMealById id attempts nw s =
  match reply (nw (length (sent s)) (LookupById id)) with
  | Some r => (inr r, after s [LookupById id] 0)
  | None =>
      match attempts with
      | S (S a) => getMealById id (S a) nw (after s [LookupById id] 1000)
      | _ => (inr Null, after s [LookupById id] 0)
      end
  end.
Proof.
  destruct attempts as [|[|a]];
    unfold getMealById, attempt, bind, fetch, json, after, reply, sleep; simpl;
    rewrite ?Z.add_0_r;
    destruct (nw (length (sent s)) (LookupById id)) as [|[[] st [|[l|]]]]; reflexivity.
Qed.

Lemma after_after s r rs ms ms' :
  after (after s [r] ms) rs ms' = after s (r :: rs) (ms + ms').
Proof.
  unfold after. simpl. f_equal; [by rewrite <- app_assoc | lia].
Qed.

(** X26. [getMealById] tries at most [attempts] times (once when
    [attempts] is [0] or [1]), sleeping 1000 ms before each retry, and never
    throws.  It sends [k] requests where [k] is the first attempt whose
    request succeeds, and returns the first meal of that response; when all
    attempts fail it returns [null]. *)
Theorem getMealById_retries id attempts nw s :
  ∃ k res,
    getMealById id attempts nw s
    = (inr res, after s (replicate k (LookupById id)) (1000 * (Z.of_nat k - 1))) ∧
    (1 ≤ k ≤ max 1 attempts)%nat ∧
    (∀ i, (i < k - 1)%nat →
          reply (nw (length (sent s) + i)%nat (LookupById id)) = None) ∧
    match reply (nw (length (sent s) + (k - 1))%nat (LookupById id)) with
    | Some r => res = r
    | None => k = max 1 attempts ∧ res = Null
    end.
Proof.
  assert (∀ s0 res (n : nat),
            (reply (nw (length (sent s0)) (LookupById id)) = Some res ∨
             reply (nw (length (sent s0)) (LookupById id)) = None
             ∧ n = 1%nat ∧ res = Null) →
            (1 ≤ 1 ≤ n)%nat →
            (1 ≤ 1 ≤ n)%nat ∧
            (∀ i, (i < 1 - 1)%nat →
                  reply (nw (length (sent s0) + i)%nat (LookupById id)) = None) ∧
            match reply (nw (length (sent s0) + (1 - 1))%nat (LookupById id)) with
            | Some r => res = r
            | None => 1%nat = n ∧ res = Null
            end) as Hone.
  { intros s0 res n Hr Hn. split_and!; [lia | lia | intros; lia |].
    change (1 - 1)%nat with 0%nat. rewrite Nat.add_0_r.
    destruct Hr as [->|(-> & -> & ->)]; done. }
  revert s. induction attempts as [|a IH]; intros s.
  - rewrite getMealById_step.
    destruct (reply (nw (length (sent s)) (LookupById id))) as [r|] eqn:Hr.
    + exists 1%nat, r. split; [reflexivity|]. apply Hone; [by left | lia].
    + exists 1%nat, Null. split; [reflexivity|]. apply Hone; [by right | lia].
  - rewrite getMealById_step.
    destruct (reply (nw (length (sent s)) (LookupById id))) as [r|] eqn:Hr.
    { exists 1%nat, r. split; [reflexivity|]. apply Hone; [by left | lia]. }
    destruct a as [|a].
    { exists 1%nat, Null. split; [reflexivity|]. apply Hone; [by right | lia]. }
    destruct (IH (after s [LookupById id] 1000)) as (k & res & Hrun & Hk & Hfail & Hlast).
    exists (S k), res. rewrite Hrun, after_after.
    assert (length (sent (after s [LookupById id] 1000)) = S (length (sent s))) as Hlen.
    { simpl. rewrite length_app. simpl. lia. }
    rewrite Hlen in Hfail, Hlast.
    split; [|split; [lia|split]].
    + simpl. f_equal. f_equal. lia.
    + intros i Hi. destruct i as [|i]; [by rewrite Nat.add_0_r|].
      replace (length (sent s) + S i)%nat with (S (length (sent s)) + i)%nat by lia.
      apply Hfail. lia.
    + replace (length (sent s) + (S k - 1))%nat
        with (S (length (sent s)) + (k - 1))%nat by lia.
      revert Hlast.
      destruct (reply (nw (S (length (sent s)) + (k - 1))%nat (LookupById id))) as [r|];
        [done|].
      intros [-> ->]. split; [lia|done].
Qed.

Lemma letter_meals_run letter nw s :
  letter_meals letter nw s
  = (inr (meals_of (nw (length (sent s)) (SearchByFirstLetter letter))),
     after s [SearchByFirstLetter letter] 0).
Proof.
  unfold letter_meals, attempt, bind, fetch, json, after, meals_of. simpl.
  rewrite Z.add_0_r.
  destruct (nw (length (sent s)) (SearchByFirstLetter letter)) as [|[[] st [|[l|]]]];
    reflexivity.
Qed.

Lemma Promise_all_letters letters nw s :
  Promise_all (letter_meals <$> letters) nw s
  = (inr (letter_answers nw (length (sent s)) letters),
     after s (SearchByFirstLetter <$> letters) 0).
Proof.
  revert s. induction letters as [|letter letters IH]; intros s.
  - simpl. unfold ret. by rewrite after_nothing.
  - simpl. unfold bind at 1. rewrite letter_meals_run.
    unfold bind at 1. rewrite IH. unfold ret.
    rewrite after_after. do 3 f_equal.
    simpl. rewrite length_app. simpl. by rewrite Nat.add_1_r.
Qed.

Lemma foldl_Set_add_spec (l acc : list string) :
  NoDup acc →
  NoDup (foldl Set_add acc l) ∧ ∀ x, x ∈ foldl Set_add acc l ↔ x ∈ acc ∨ x ∈ l.
Proof.
  revert acc. induction l as [|y l IH]; intros acc Hnd; simpl.
  - split; [done|]. intros x. rewrite elem_of_nil. naive_solver.
  - unfold Set_add at 2 4. case_bool_decide as Hy.
    + destruct (IH acc Hnd) as [Hnd' Hin]. split; [done|].
      intros x. rewrite Hin, elem_of_cons. naive_solver.
    + destruct (IH (acc ++ [y])) as [Hnd' Hin].
      { apply NoDup_app. split_and!; [done | | apply NoDup_singleton].
        intros x Hx Hx'. apply list_elem_of_singleton in Hx'. by subst. }
      split; [done|]. intros x.
      rewrite Hin, elem_of_app, list_elem_of_singleton, elem_of_cons. naive_solver.
Qed.

Lemma find_first_id id (l : list meal) m :
  List.find (λ meal, String.eqb (Favorites.idMeal meal) id) l = Some m →
  Favorites.idMeal m = id ∧
  ∃ before rest, l = before ++ m :: rest ∧ id ∉ Favorites.ids before.
Proof.
  unfold Favorites.ids. induction l as [|x l IH]; simpl; [done|].
  destruct (String.eqb_spec (Favorites.idMeal x) id) as [Heq|Hne].
  - intros [= <-]. split; [done|]. exists [], l. split; [done|]. apply not_elem_of_nil.
  - intros Hfind. destruct (IH Hfind) as (Hid & before & rest & -> & Hb).
    split; [done|]. exists (x :: before), rest. split; [done|].
    simpl. rewrite not_elem_of_cons. done.
Qed.

Lemma find_id_is_Some id (l : list meal) :
  id ∈ Favorites.ids l →
  is_Some (List.find (λ meal, String.eqb (Favorites.idMeal meal) id) l).
Proof.
  unfold Favorites.ids. induction l as [|x l IH]; simpl.
  - intros Hin. by apply elem_of_nil in Hin.
  - rewrite elem_of_cons. intros [->|Hin].
    + rewrite String.eqb_refl. by eexists.
    + destruct (String.eqb _ _); [by eexists | by apply IH].
Qed.

Lemma find_all_ids (flat : list meal) (S : list string) :
  (∀ id, id ∈ S → id ∈ Favorites.ids flat) →
  ∃ ms, (λ id, List.find (λ meal, String.eqb (Favorites.idMeal meal) id) flat) <$> S
        = Some <$> ms
        ∧ Favorites.ids ms = S
        ∧ ∀ m, m ∈ ms →
            ∃ before rest, flat = before ++ m :: rest
                           ∧ Favorites.idMeal m ∉ Favorites.ids before.
Proof.
  induction S as [|id S IH]; intros Hin.
  - exists []. split_and!; [done | done |]. intros m Hm. by apply elem_of_nil in Hm.
  - destruct IH as (ms & Heq & Hids & Hfirst).
    { intros id' Hid'. apply Hin. by right. }
    destruct (find_id_is_Some id flat) as [m Hm]; [apply Hin; by left|].
    destruct (find_first_id id flat m Hm) as (Hid & before & rest & Hflat & Hb).
    exists (m :: ms). split_and!.
    + rewrite !fmap_cons. cbv beta. by rewrite Hm, Heq.
    + unfold Favorites.ids in *. rewrite fmap_cons. by rewrite Hid, Hids.
    + intros m' [->|Hm']%elem_of_cons; [|by apply Hfirst].
      exists before, rest. by rewrite Hid.
Qed.

(** X27. [searchMealsByFirstLetter] sends one request per letter, in
    order, and never throws: a letter whose request fails contributes no
    meal.  Of the meals of all the responses taken together it returns, for
    each identifier, the first meal carrying it, so that no identifier is
    returned twice, every identifier received is returned, and no element is
    [undefined]. *)
Theorem searchMealsByFirstLetter_spec letters nw s :
  ∃ ms, searchMealsByFirstLetter letters nw s
        = (inr (Some <$> ms), after s (SearchByFirstLetter <$> letters) 0)
        ∧ NoDup (Favorites.ids ms)
        ∧ (∀ m, m ∈ concat (letter_answers nw (length (sent s)) letters) →
                Favorites.idMeal m ∈ Favorites.ids ms)
        ∧ (∀ m, m ∈ ms →
             ∃ before rest,
               concat (letter_answers nw (length (sent s)) letters) = before ++ m :: rest
               ∧ Favorites.idMeal m ∉ Favorites.ids before).
Proof.
  set (flat := concat (letter_answers nw (length (sent s)) letters)).
  destruct (foldl_Set_add_spec (Favorites.idMeal <$> flat) []) as [Hnd Hin];
    [apply NoDup_nil_2|].
  destruct (find_all_ids flat (Set_from (Favorites.idMeal <$> flat)))
    as (ms & Heq & Hids & Hfirst).
  { intros id Hid. apply Hin in Hid as [Hid|Hid]; [by apply elem_of_nil in Hid | done]. }
  exists ms. split_and!.
  - unfold searchMealsByFirstLetter, attempt. unfold bind at 1.
    rewrite Promise_all_letters. fold flat. unfold ret. by rewrite Heq.
  - by rewrite Hids.
  - intros m Hm. rewrite Hids. apply Hin. right.
    apply list_elem_of_fmap. by exists m.
  - done.
Qed.

Lemma getRelatedRecipes_run r c limit nw s :
  strCategory r = Some c →
  truthy c = true →
  getRelatedRecipes (Some r) limit nw s
  = (inr (take limit
            (List.filter
               (λ meal, negb (String.eqb (Favorites.idMeal meal) (Favorites.idMeal r)))
               (meals_of (nw (length (sent s)) (FilterByCategory c))))),
     after s [FilterByCategory c] 0).
Proof.
  intros Hc Ht. unfold getRelatedRecipes. rewrite Hc, Ht.
  unfold attempt, bind, fetch, json, after, meals_of. simpl. rewrite Z.add_0_r.
  destruct (nw (length (sent s)) (FilterByCategory c)) as [|[[] st [|[l|]]]];
    simpl; rewrite ?take_nil; reflexivity.
Qed.

(** X28. [getRelatedRecipes] never throws and returns at most [limit]
    meals, none of which is the recipe itself.  When the recipe is missing
    or has no truthy [strCategory] it returns the empty list without
    sending a request; otherwise it sends exactly one request, for that
    category, and every meal returned comes from its response. *)
Theorem getRelatedRecipes_spec recipe limit nw s :
  ∃ ms s', getRelatedRecipes recipe limit nw s = (inr ms, s') ∧
    (length ms ≤ limit)%nat ∧
    (∀ r, recipe = Some r → Favorites.idMeal r ∉ Favorites.ids ms) ∧
    (∀ r c, recipe = Some r → strCategory r = Some c → truthy c = true →
       s' = after s [FilterByCategory c] 0 ∧
       ∀ m, m ∈ ms → m ∈ meals_of (nw (length (sent s)) (FilterByCategory c))) ∧
    ((∀ c, recipe ≫= strCategory = Some c → truthy c = false) → ms = [] ∧ s' = s).
Proof.
  assert (∀ r' : meal, Favorites.idMeal r' ∉ Favorites.ids []) as Hnil.
  { intros r'. apply not_elem_of_nil. }
  destruct recipe as [r|].
  2:{ exists [], s. split_and!; try done; try (simpl; lia). }
  destruct (strCategory r) as [c|] eqn:Hc.
  2:{ exists [], s. unfold getRelatedRecipes. rewrite Hc.
      split_and!; try done; try (simpl; lia). intros r' c' [= <-]. congruence. }
  destruct (truthy c) eqn:Ht.
  2:{ exists [], s. unfold getRelatedRecipes. rewrite Hc, Ht.
      split_and!; try done; try (simpl; lia). intros r' c' [= <-] Hc' Ht'. congruence. }
  rewrite (getRelatedRecipes_run r c) by done.
  eexists _, _. split_and!; [reflexivity | | | |].
  - rewrite length_take. lia.
  - intros r' [= <-]. unfold Favorites.ids. rewrite list_elem_of_fmap.
    intros (m & Hid & Hm). apply elem_of_take in Hm as (i & Hm & _).
    apply list_elem_of_lookup_2, list_elem_of_In, List.filter_In in Hm as [_ Hm].
    apply negb_true_iff, String.eqb_neq in Hm. congruence.
  - intros r' c' [= <-] Hc' Ht'. assert (c' = c) as -> by congruence.
    split; [done|]. intros m Hm. apply elem_of_take in Hm as (i & Hm & _).
    apply list_elem_of_lookup_2, list_elem_of_In, List.filter_In in Hm as [Hm _].
    by apply list_elem_of_In.
  - intros Hno. simpl in Hno. specialize (Hno c Hc). congruence.
Qed.

End ApiFacts.

(** ** More concrete runs *)

Section MoreScenarios.
Import Cache Favorites.

Lemma initialize_spec_witness :
  run 0 initializeCache absent_cache
  = (Normal (), {| disk := Holds (Encoded ∅); read_only := false; clock := 1000;
                   invoked := []; writes := 1 |})
  ∧ run 0 initializeFavorites corrupt_favorites = (Normal (), corrupt_favorites).
Proof.
  destruct (initialize_spec 0 absent_cache corrupt_favorites) as (_ & Hkeep & Hnew & _).
  split; [apply Hnew; reflexivity | apply Hkeep; discriminate].
Defined.

Lemma getFromCache_fresh_witness :
  run 0 (getFromCache "k") (stored zero_doc 1000 [] 0)
  = (Normal (JNum 0), stored zero_doc 1000 [] 0).
Proof.
  apply (getFromCache_fresh 0 "k" zero_doc zero_entry).
  - reflexivity.
  - reflexivity.
  - vm_compute. reflexivity.
Defined.

Lemma getFromCache_only_reads_witness :
  run 0 (getFromCache "other") (stored zero_doc 1000 [] 0)
  = (Normal JNull, stored zero_doc 1000 [] 0).
Proof.
  apply (proj2 (getFromCache_only_reads 0 "other" (stored zero_doc 1000 [] 0)) zero_doc).
  - reflexivity.
  - reflexivity.
Defined.

Lemma saveToCache_other_keys_witness :
  (run 1 (getFromCache "k")
       (set_clock 2000
          (stored (<["j" := {| timestamp := 1000; data := JStr "v" |}]> zero_doc)
                  1000 [] 1))).1
  = (run 1 (getFromCache "k") (set_clock 2000 (stored zero_doc 1000 [] 0))).1.
Proof.
  apply (saveToCache_other_keys 0 1 "j" "k" (JStr "v") (stored zero_doc 1000 [] 0)).
  - vm_compute. reflexivity.
  - discriminate.
Defined.

Lemma saveToCache_overwrites_witness :
  run 0 (saveToCache "k" (JStr "new"))
      (set_clock 2000 (run 0 (saveToCache "k" (JStr "old")) (stored zero_doc 1000 [] 0)).2)
  = (Normal true,
     stored (<["k" := {| timestamp := 2000; data := JStr "new" |}]> zero_doc) 2000 [] 2).
Proof.
  apply (saveToCache_overwrites 0 "k" (JStr "old") (JStr "new") zero_doc 1000 2000 [] 0%nat).
  left. discriminate.
Defined.

Lemma saveToCache_all_or_nothing_witness :
  ∃ b w', run 0 (saveToCache "k" JNull) corrupt_cache = (Normal b, w') ∧
          (b = false → w' = corrupt_cache).
Proof.
  destruct (saveToCache_all_or_nothing 0 "k" JNull corrupt_cache) as (b & w' & Hrun & Hf & _).
  by exists b, w'.
Defined.

Lemma clearExpiredCache_invisible_witness :
  (run 1 (getFromCache "a")
       (set_clock 100000005
          (run 0 clearExpiredCache (stored three_entries 100000000 [] 0)).2)).1
  = (run 1 (getFromCache "a") (stored three_entries 100000005 [] 0)).1.
Proof.
  apply (clearExpiredCache_invisible 0 1 "a" three_entries 100000000 100000005).
  vm_compute. discriminate.
Defined.

Lemma clearExpiredCache_twice_witness :
  ∃ n1 n2 w1 w2,
    run 0 clearExpiredCache (stored three_entries 100000000 [] 0) = (Normal n1, w1) ∧
    run 0 clearExpiredCache (set_clock 100000000 w1) = (Normal n2, w2) ∧
    disk w2 = Holds (Encoded (kept 100000000 three_entries)) ∧
    (n1 + n2 = size (dropped 100000000 three_entries))%nat ∧
    (100000000 = 100000000 → n2 = 0%nat ∧ w2 = w1).
Proof.
  apply (clearExpiredCache_twice 0 three_entries 100000000 100000000).
  vm_compute. discriminate.
Defined.

Lemma clearExpiredCache_gives_up_witness :
  run 0 clearExpiredCache read_only_cache = (Normal 0%nat, read_only_cache).
Proof.
  apply (proj2 (clearExpiredCache_gives_up 0 read_only_cache)).
  right. reflexivity.
Defined.

Lemma getCachedOrFetch_forceRefresh_witness :
  run 0 (getCachedOrFetch "b" counting true) (stored three_entries 100000000 [] 0)
  = (Normal (JNum 0),
     stored (<["b" := {| timestamp := 100000000; data := JNum 0 |}]> three_entries)
            100000000 [0%nat] 1).
Proof.
  apply (getCachedOrFetch_forceRefresh 0 "b" counting three_entries).
  left. discriminate.
Defined.

Lemma getCachedOrFetch_memoizes_witness :
  ∃ w', run 0 (getCachedOrFetch "k1" (λ _, Fulfilled (JStr "v1")) false) (stored ∅ 0 [] 0)
        = (Normal (JStr "v1"), w') ∧
        run 1 (getCachedOrFetch "k1" counting false) (set_clock 5000 w')
        = (Normal (JStr "v1"), set_clock 5000 w').
Proof.
  apply (getCachedOrFetch_memoizes 0 1 "k1" (λ _, Fulfilled (JStr "v1")) counting
           (JStr "v1") ∅ (stored ∅ 0 [] 0) 5000).
  - split; [reflexivity | left; reflexivity].
  - left. discriminate.
  - intros d e Hd He. injection Hd as <-. rewrite lookup_empty in He. discriminate He.
  - reflexivity.
  - reflexivity.
  - vm_compute. reflexivity.
Defined.

Lemma getCachedOrFetch_falsy_never_served_witness :
  ∃ w', run 0 (getCachedOrFetch "k" counting false) (stored zero_doc 1000 [] 0)
        = (Normal (JNum 0), w')
        ∧ invoked w' = [0%nat].
Proof.
  apply (getCachedOrFetch_falsy_never_served 0 "k" counting zero_doc zero_entry
           (stored zero_doc 1000 [] 0)).
  - reflexivity.
  - reflexivity.
  - reflexivity.
Defined.

Lemma getCachedOrFetch_fails_only_on_reject_witness :
  Rejected (Raised (JStr "offline")) = Rejected (Raised (JStr "offline"))
  ∧ logged 0 (stored zero_doc 1000 [] 0) = logged 0 (stored zero_doc 1000 [] 0).
Proof.
  apply (getCachedOrFetch_fails_only_on_reject 0 "k"
           (λ _, Rejected (Raised (JStr "offline"))) false (Raised (JStr "offline"))
           (stored zero_doc 1000 [] 0) (logged 0 (stored zero_doc 1000 [] 0))).
  vm_compute. reflexivity.
Defined.

Lemma isInFavorites_spec_witness :
  (run 0 (isInFavorites (idMeal arrabiata))
       (run 0 (addFavorite arrabiata) (stored [teriyaki] 0 [] 0)).2).1 = Normal true
  ∧ (run 0 (isInFavorites "52772")
         (run 0 (removeFavorite "52772") (stored [teriyaki] 0 [] 0)).2).1 = Normal false.
Proof.
  destruct (isInFavorites_spec 0 "52772" arrabiata [teriyaki] 0 [] 0%nat) as (_ & Hadd & Hrem).
  by split.
Defined.

Lemma getFavoriteById_spec_witness :
  ∃ o, run 0 (getFavoriteById "52771") (stored [teriyaki; arrabiata] 0 [] 0)
       = (Normal o, stored [teriyaki; arrabiata] 0 [] 0)
       ∧ (o = None ↔ "52771" ∉ ids [teriyaki; arrabiata]).
Proof.
  destruct (getFavoriteById_spec 0 "52771" [teriyaki; arrabiata] 0 [] 0%nat)
    as (o & Hrun & _ & Hnone).
  by exists o.
Defined.

Lemma addFavorite_removeFavorite_witness :
  run 0 (addFavorite arrabiata) (stored [teriyaki] 0 [] 0)
    = (Normal true, stored [teriyaki; arrabiata] 0 [] 1) ∧
  run 0 (removeFavorite "52771") (stored [teriyaki; arrabiata] 0 [] 1)
    = (Normal true, stored [teriyaki] 0 [] 2).
Proof.
  apply (addFavorite_removeFavorite 0 arrabiata [teriyaki] 0 [] 0%nat).
  apply (bool_decide_unpack _). vm_compute. exact I.
Defined.

Lemma removeFavorite_removes_one_witness :
  ∃ d', run 0 (removeFavorite "52772") (stored [teriyaki; arrabiata] 0 [] 0)
        = (Normal true, stored d' 0 [] 1)
        ∧ S (length d') = 2%nat
        ∧ NoDup (ids d')
        ∧ (∀ r, r ∈ [teriyaki; arrabiata] → idMeal r ≠ "52772" → r ∈ d').
Proof.
  apply (removeFavorite_removes_one 0 "52772" [teriyaki; arrabiata] 0 [] 0%nat).
  - apply (bool_decide_unpack _). vm_compute. exact I.
  - apply (bool_decide_unpack _). vm_compute. exact I.
Defined.

Lemma addFavorite_replaces_corrupt_witness :
  ∃ w', run 0 (addFavorite teriyaki) corrupt_favorites = (Normal true, w') ∧
        disk w' = Holds (Encoded [teriyaki]).
Proof.
  apply (addFavorite_replaces_corrupt 0 teriyaki corrupt_favorites).
  - reflexivity.
  - right. exists "[oops". reflexivity.
Defined.

Lemma getFavorites_spec_witness :
  ∃ d w', run 0 getFavorites absent_favorites = (Normal d, w') ∧
          d = [] ∧ disk w' = Holds (Encoded []).
Proof.
  destruct (getFavorites_spec 0 absent_favorites) as (d & w' & Hrun & _ & _ & He & Hnew & _).
  exists d, w'. split_and!; [done | by apply He | by apply Hnew].
Defined.

Lemma favorites_unique_ids_interleaved_witness :
  holds_only unique_ids (stored [teriyaki] 0 [] 2).
Proof.
  apply (favorites_unique_ids_interleaved
           [addFavorite teriyaki; addFavorite teriyaki] (stored [] 0 [] 0)
           (stored [teriyaki] 0 [] 2) [Ret true; Ret true]).
  - apply Forall_cons. split; [left; by exists teriyaki|].
    apply Forall_cons. split; [left; by exists teriyaki|].
    apply Forall_nil_2.
  - intros d Hd. injection Hd as <-. apply NoDup_nil_2.
  - apply (play_sound [0; 0; 0; 0; 0; 0; 1; 1; 1; 1; 1; 1; 0; 0; 1; 1]%nat).
    vm_compute. reflexivity.
Defined.

Lemma addFavorite_lost_update_witness :
  ∃ pool1,
    rtc sched (spawn 0 [addFavorite teriyaki; addFavorite arrabiata] (stored [] 0 [] 0))
              (stored [] 0 [] 0, pool1) ∧
    (∀ w pool,
       rtc sched (stored [] 0 [] 0, pool1) (w, pool) →
       Forall (λ p, finished p = true) pool →
       pool = [Ret true; Ret true] ∧
       (disk w = Holds (Encoded [teriyaki]) ∨
        disk w = Holds (Encoded [arrabiata]) ∨
        ∃ raw, disk w = Holds (Malformed raw))).
Proof.
  destruct (addFavorite_lost_update teriyaki arrabiata [] 0 [] 0%nat)
    as (pool1 & Hread & Hlost & _).
  - apply not_elem_of_nil.
  - apply not_elem_of_nil.
  - exists pool1. split; [exact Hread | exact Hlost].
Defined.

Lemma saveToCache_lost_update_witness :
  ∃ pool1,
    rtc sched (spawn 0 [saveToCache "a" (JNum 1); saveToCache "b" (JNum 2)]
                 (stored ∅ 5 [] 0))
              (stored ∅ 5 [] 0, pool1) ∧
    (∀ w pool,
       rtc sched (stored ∅ 5 [] 0, pool1) (w, pool) →
       Forall (λ p, finished p = true) pool →
       pool = [Ret true; Ret true] ∧
       (disk w = Holds (Encoded (<["a" := {| timestamp := 5; data := JNum 1 |}]> ∅)) ∨
        disk w = Holds (Encoded (<["b" := {| timestamp := 5; data := JNum 2 |}]> ∅)) ∨
        ∃ raw, disk w = Holds (Malformed raw))).
Proof.
  destruct (saveToCache_lost_update "a" "b" (JNum 1) (JNum 2) ∅ 5 [] 0%nat)
    as (pool1 & Hread & Hlost & _).
  - left. discriminate.
  - left. discriminate.
  - exists pool1. split; [exact Hread | exact Hlost].
Defined.

Lemma getCachedOrFetch_pool_safety_witness :
  (length (invoked two_fetches_world) ≤ 2)%nat ∧
  NoDup (invoked two_fetches_world) ∧
  (∀ tid e, two_fetches_pool !! tid = Some (Throw e) →
     ∃ n, invoked two_fetches_world !! n = Some tid ∧ counting n = Rejected e) ∧
  (∀ tid v, two_fetches_pool !! tid = Some (Ret v) → tid ∈ invoked two_fetches_world →
     ∃ n, invoked two_fetches_world !! n = Some tid ∧ counting n = Fulfilled v).
Proof.
  apply (getCachedOrFetch_pool_safety "k" counting 2 (stored ∅ 0 [] 0)).
  - reflexivity.
  - apply two_calls_schedule.
Defined.

End MoreScenarios.

Section ApiScenarios.
Import Api.

(** The first request fails, the second succeeds after one second. *)
Example getMealById_flaky :
  getMealById "52772" 2 flaky nothing_sent
  = (inr (Found teriyaki),
     {| sent := [LookupById "52772"; LookupById "52772"]; slept := 1000 |}).
Proof. reflexivity. Qed.

(** With a single attempt the failure is final. *)
Example getMealById_flaky_once :
  getMealById "52772" 1 flaky nothing_sent
  = (inr Null, {| sent := [LookupById "52772"]; slept := 0 |}).
Proof. reflexivity. Qed.

(** Two letters, the same three meals each time: two distinct meals come
    back, in the order of their first occurrence. *)
Example searchMealsByFirstLetter_steady :
  searchMealsByFirstLetter ["c"; "t"] steady nothing_sent
  = (inr [Some chicken_handi; Some teriyaki],
     {| sent := [SearchByFirstLetter "c"; SearchByFirstLetter "t"]; slept := 0 |}).
Proof. vm_compute. reflexivity. Qed.

Example getRelatedRecipes_steady :
  getRelatedRecipes (Some chicken_handi) 3 steady nothing_sent
  = (inr [teriyaki], {| sent := [FilterByCategory (JStr "Chicken")]; slept := 0 |}).
Proof. vm_compute. reflexivity. Qed.

Lemma getMealById_retries_witness :
  ∃ k res,
    getMealById "52772" 2 flaky nothing_sent
    = (inr res, after nothing_sent (replicate k (LookupById "52772"))
                  (1000 * (Z.of_nat k - 1))) ∧
    (1 ≤ k ≤ 2)%nat.
Proof.
  destruct (getMealById_retries "52772" 2 flaky nothing_sent) as (k & res & Hrun & Hk & _).
  by exists k, res.
Defined.

Lemma searchMealsByFirstLetter_spec_witness :
  ∃ ms, searchMealsByFirstLetter ["c"; "t"] steady nothing_sent
        = (inr (Some <$> ms),
           after nothing_sent [SearchByFirstLetter "c"; SearchByFirstLetter "t"] 0)
        ∧ NoDup (Favorites.ids ms).
Proof.
  destruct (searchMealsByFirstLetter_spec ["c"; "t"] steady nothing_sent)
    as (ms & Hrun & Hnd & _).
  by exists ms.
Defined.

Lemma getRelatedRecipes_spec_witness :
  ∃ ms s', getRelatedRecipes (Some chicken_handi) 3 steady nothing_sent = (inr ms, s') ∧
    (length ms ≤ 3)%nat ∧
    (Favorites.idMeal chicken_handi ∉ Favorites.ids ms) ∧
    s' = after nothing_sent [FilterByCategory (JStr "Chicken")] 0.
Proof.
  destruct (getRelatedRecipes_spec (Some chicken_handi) 3 steady nothing_sent)
    as (ms & s' & Hrun & Hlen & Hself & Hreq & _).
  exists ms, s'. split_and!; [done | done | by apply Hself |].
  apply (Hreq chicken_handi (JStr "Chicken")); reflexivity.
Defined.

End ApiScenarios.
